(** * ngsPETSc.utils.firedrake: wrapping Netgen/NGSolve meshes for Firedrake

    A shallow embedding of [src/ngsPETSc/utils/firedrake.py]:
    [refineMarkedElements], [curveField] and [FiredrakeMesh.__init__].

    Python exceptions are values of [exn]; a call that may raise returns a
    [result].  Objects mutated in place are threaded explicitly: the Netgen
    mesh held by the Firedrake mesh (and the mesh passed to the
    constructor) is returned next to the result, also when the call
    raises; the data array of the new coordinate function is passed from
    one loop iteration to the next.  Netgen, PETSc, Firedrake, FIAT and
    [ngsPETSc.MeshMapping] are collaborators outside this file; they are
    interfaces (type classes) whose methods are total functions. *)

From Stdlib Require Import ZArith.
From Stdlib.Floats Require Import SpecFloat.
From stdpp Require Import gmap strings list.

Open Scope Z_scope.

(** ** Python values shared by the three operations *)

(** The exceptions the module raises itself or lets escape. *)
Inductive exn : Type :=
  | NotImplementedError (msg : string)
  | ValueError (msg : string)
  | KeyError
  | IndexError
  | AttributeError.

Inductive result (A : Type) : Type :=
  | Ok (a : A)
  | Raise (e : exn).
Arguments Ok {A} a.
Arguments Raise {A} e.

Definition bind {A B : Type} (r : result A) (k : A → result B) : result B :=
  match r with
  | Ok a => k a
  | Raise e => Raise e
  end.

Notation "'let!' x ':=' r 'in' k" := (bind r (fun x => k))
  (at level 10, x pattern, r at level 100, k at level 200, only parsing).

(** [[f(x) for x in l]], raising at the first [x] where [f] raises. *)
Fixpoint mapM {A B : Type} (f : A → result B) (l : list A) : result (list B) :=
  match l with
  | [] => Ok []
  | x :: l' =>
      let! y := f x in
      let! ys := mapM f l' in
      Ok (y :: ys)
  end.

(** PETSc scalars and NumPy float64 entries: IEEE-754 doubles. *)
Abbreviation scalar := spec_float.

(** [bool(x)] of a float: every value but +0.0 and -0.0 is truthy (a NaN
    too). *)
Definition truthy (x : scalar) : bool :=
  match x with
  | S754_zero _ => false
  | _ => true
  end.

(** Position of index [k] in a NumPy axis of length [n]: negative indices
    count from the end, anything outside [-n, n) is an [IndexError]. *)
Definition np_index (n : nat) (k : Z) : option nat :=
  if decide (0 ≤ k < Z.of_nat n) then Some (Z.to_nat k)
  else if decide (- Z.of_nat n ≤ k < 0) then Some (Z.to_nat (Z.of_nat n + k))
  else None.

(** [a[k]] *)
Definition np_get {A : Type} (a : list A) (k : Z) : result A :=
  match np_index (length a) k ≫= (a !!.) with
  | Some x => Ok x
  | None => Raise IndexError
  end.

(** ** The serial (Netgen) mesh *)

Record Element : Type := mkElement {
  refine : bool;
  curved : bool;
  vertices : list nat
}.

Definition set_refine (b : bool) (el : Element) : Element :=
  {| refine := b; curved := curved el; vertices := vertices el |}.

Record ngmesh : Type := mkMesh {
  dim : Z;
  Elements2D : list Element;
  Elements3D : list Element
}.

Definition set_Elements2D (els : list Element) (m : ngmesh) : ngmesh :=
  {| dim := dim m; Elements2D := els; Elements3D := Elements3D m |}.

(** [netgen.libngpy._meshing.Mesh(d)]: an empty mesh of dimension [d]. *)
Definition ngm_Mesh (d : Z) : ngmesh :=
  {| dim := d; Elements2D := []; Elements3D := [] |}.

(** The mesh generator's routines used by the module. *)
Class Netgen : Type := {
  (** [mesh.Refine(adaptive=True)] *)
  Refine : ngmesh → ngmesh;
  (** [mesh.Curve(order)] *)
  Curve : Z → ngmesh → ngmesh;
  (** [mesh.CalcElementMapping(refPts, out)]: the value the routine writes
      at [out[el][pt][c]]. *)
  CalcElementMapping : ngmesh → list (list scalar) → nat → nat → nat → scalar;
  (** [mesh.Split2Tets()] *)
  Split2Tets : ngmesh → ngmesh
}.

(** ** The distributed (PETSc) side *)

(** A [PETSc.Section], as far as the module uses it. *)
Record PetscSection : Type := mkSection {
  getOffset : Z → Z
}.

Class PETSc : Type := {
  SF : Type;
  DM : Type;
  Comm : Type;
  DMPlexTransform : Type;
  (** [dm.distributeField(sf, section, vec)], a pair of the new section and
      the new vector. *)
  distributeField : DM → SF → PetscSection → list scalar → PetscSection * list scalar;
  (** [PETSc.DMPlexTransform().create(comm=PETSc.COMM_WORLD)] after
      [setType(PETSc.DMPlexTransformType.REFINETOBOX)] *)
  REFINETOBOX : DMPlexTransform;
  (** [transform.setDM(plex); transform.setUp(); transform.apply(plex)] *)
  transform_apply : DMPlexTransform → DM → DM
}.

(** The Firedrake mesh a method is called on ([self]). *)
Record MeshGeometry `{PETSc} : Type := mkGeometry {
  geometric_dimension : Z;
  cell_numbering : PetscSection;
  sfBCInv : option SF;
  topology_dm : DM;
  comm_rank : nat;
  netgen_mesh : ngmesh
}.

(** [fd.Mesh(ngmesh)]: the new Firedrake mesh built from a Netgen mesh. *)
Inductive FdMesh : Type :=
  | fd_Mesh (m : ngmesh).

Definition fd_netgen_mesh (m : FdMesh) : ngmesh :=
  match m with fd_Mesh n => n end.

(** ** refineMarkedElements *)

Section Refinement.
Context `{PETSc, Netgen}.

(** Lines 38-44: the index function and the array it indexes. *)
Definition reconcile (self : MeshGeometry) (marked : list scalar)
  : (Z → Z) * list scalar :=
  match sfBCInv self with
  | Some sf =>
      (fun x => x,
       snd (distributeField (topology_dm self) sf (cell_numbering self) marked))
  | None => (getOffset (cell_numbering self), marked)
  end.

(** Lines 47-51, from element number [i] on.  The list returned is the
    element array when the loop stops, normally or at the exception. *)
Fixpoint mark_loop (mark : list scalar) (getIdx : Z → Z) (i : nat)
    (els : list Element) : option exn * list Element :=
  match els with
  | [] => (None, [])
  | el :: rest =>
      match np_get mark (getIdx (Z.of_nat i)) with
      | Raise e => (Some e, el :: rest)
      | Ok v =>
          let el' := if truthy v then set_refine true el
                     else set_refine false el in
          let '(r, rest') := mark_loop mark getIdx (S i) rest in
          (r, el' :: rest')
      end
  end.

(** The result and the Netgen mesh of [self] when the call ends. *)
Definition refineMarkedElements (self : MeshGeometry) (mark : list scalar)
  : result FdMesh * ngmesh :=
  if decide (geometric_dimension self = 2) then
    let '(getIdx, marked0) := reconcile self mark in
    if decide (comm_rank self = 0%nat) then
      let '(r, els) := mark_loop marked0 getIdx 0 (Elements2D (netgen_mesh self)) in
      let flagged := set_Elements2D els (netgen_mesh self) in
      match r with
      | Some e => (Raise e, flagged)
      | None => let refined := Refine flagged in (Ok (fd_Mesh refined), refined)
      end
    else (Ok (fd_Mesh (ngm_Mesh 2)), netgen_mesh self)
  else
    (Raise (NotImplementedError "No implementation for dimension other than 2."),
     netgen_mesh self).

(** The indices of line 48 all fall inside the resolved marking array. *)
Definition marks_in_range (self : MeshGeometry) (mark : list scalar) : Prop :=
  ∀ i, (i < length (Elements2D (netgen_mesh self)))%nat →
       is_Some (np_index (length (reconcile self mark).2)
                         ((reconcile self mark).1 (Z.of_nat i))).

End Refinement.

(** ** curveField *)

(** [round(x, ndigits)] on a float, from the Python runtime. *)
Class Python : Type := {
  round : scalar → Z → scalar
}.

(** The reference cell of the finite element (FIAT). *)
Class FIAT : Type := {
  Cell : Type;
  (** [ref_el.sub_entities[d][0]], when the dictionary has key [d]. *)
  sub_entities : Cell → Z → option (list (Z * Z));
  (** [ref_el.make_points(i, j, order)] *)
  make_points : Cell → Z → Z → Z → list (list scalar)
}.

(** A Firedrake function on a vector DG space, as far as [curveField]
    reads and writes it.  [dat_data] has one row per node and one column
    per component; [cell_node_map_values] one row of node numbers per
    cell. *)
Record Function `{FIAT} : Type := mkFunction {
  dat_data : list (list scalar);
  cell_node_map_values : list (list Z);
  ref_el : Cell
}.

Class Firedrake `{PETSc, FIAT} : Type := {
  (** [fd.interpolate(self.coordinates,
      fd.VectorFunctionSpace(self, "DG", order))] *)
  interpolate_coordinates : MeshGeometry → Z → Function
}.

(** [np.ndarray((n1, n2, n3))] once a routine has filled it with [f], and
    one of its blocks. *)
Definition ndarray2 (n2 n3 : nat) (g : nat → nat → scalar) : list (list scalar) :=
  (λ j, (λ c, g j c) <$> seq 0 n3) <$> seq 0 n2.

Definition ndarray3 (n1 n2 n3 : nat) (f : nat → nat → nat → scalar)
  : list (list (list scalar)) :=
  (λ i, ndarray2 n2 n3 (f i)) <$> seq 0 n1.

(** Equality of two tuples of floats, as [==] decides it. *)
Fixpoint tuple_eqb (a b : list scalar) : bool :=
  match a, b with
  | [], [] => true
  | x :: a', y :: b' => SFeqb x y && tuple_eqb a' b'
  | _, _ => false
  end.

(** A [dict] from tuples of floats to integers, in insertion order. *)
Fixpoint dict_set (d : list (list scalar * nat)) (k : list scalar) (v : nat)
  : list (list scalar * nat) :=
  match d with
  | [] => [(k, v)]
  | (k', v') :: d' =>
      if tuple_eqb k' k then (k', v) :: d' else (k', v') :: dict_set d' k v
  end.

Fixpoint dict_get (d : list (list scalar * nat)) (k : list scalar) : result nat :=
  match d with
  | [] => Raise KeyError
  | (k', v) :: d' => if tuple_eqb k' k then Ok v else dict_get d' k
  end.

(** The representative of a float up to [==]: the two zeros are equal, all
    other values only to themselves (a NaN not even that). *)
Definition SFcanon (x : scalar) : scalar :=
  match x with
  | S754_zero _ => S754_zero false
  | _ => x
  end.

(** No key of [d] equals [q]. *)
Definition key_absent (q : list scalar) (d : list (list scalar * nat)) : Prop :=
  Forall (λ kv, tuple_eqb kv.1 q = false) d.

Section Curving.
Context `{PETSc, Netgen, Python, FIAT, !Firedrake}.

(** [tuple(map(lambda x: round(x,8), pts))] *)
Definition round_tuple (pts : list scalar) : list scalar :=
  (λ x, round x 8) <$> pts.

(** [{k: v for v, k in enumerate(pts)}] *)
Definition enumerate_dict (pts : list (list scalar)) : list (list scalar * nat) :=
  foldl (λ d vk, dict_set d vk.2 vk.1) [] (zip (seq 0 (length pts)) pts).

(** Lines 89-93 (112-116): the list [p]. *)
Definition match_points (phys : list (list scalar)) (dofs : list (list scalar))
  : result (list nat) :=
  let pts := round_tuple <$> phys in
  let dofMap := enumerate_dict pts in
  mapM (λ row, dict_get dofMap (round_tuple row)) dofs.

(** [curvedPhysPts[i] = src] for a block of [n] rows: NumPy accepts a
    source of [n] rows, stretches a single row, and refuses the rest. *)
Definition assign_block (n : nat) (src : list (list scalar))
  : result (list (list scalar)) :=
  if decide (length src = n) then Ok src
  else match src with
       | [row] => Ok (replicate n row)
       | _ => Raise (ValueError "could not broadcast input array")
       end.

(** [newFunctionCoordinates.sub(c).dat.data[datIdx] = x]: an
    [IndexError] when the array has no column [c] or no row [datIdx]. *)
Definition write_component (data : list (list scalar)) (datIdx : Z) (c : nat)
    (x : scalar) : result (list (list scalar)) :=
  match np_index (length data) datIdx with
  | Some k =>
      match data !! k with
      | Some row =>
          if decide (c < length row)%nat then Ok (<[k := <[c := x]> row]> data)
          else Raise IndexError
      | None => Raise IndexError
      end
  | None => Raise IndexError
  end.

(** One pass of the inner loop (lines 96-97, 119-121): components
    [0 .. ncomp-1] of row [datIdx] receive those of a curved point. *)
Fixpoint write_point (ncomp : nat) (c : nat) (data : list (list scalar))
    (datIdx : Z) (pt : list scalar) : result (list (list scalar)) :=
  match ncomp with
  | O => Ok data
  | S ncomp' =>
      let! x := np_get pt (Z.of_nat c) in
      let! data' := write_component data datIdx c x in
      write_point ncomp' (S c) data' datIdx pt
  end.

(** The inner loop, from position [j] on. *)
Fixpoint write_loop (ncomp : nat) (block : list (list scalar)) (j : nat)
    (slots : list Z) (data : list (list scalar)) : result (list (list scalar)) :=
  match slots with
  | [] => Ok data
  | datIdx :: slots' =>
      let! pt := np_get block (Z.of_nat j) in
      let! data' := write_point ncomp 0 data datIdx pt in
      write_loop ncomp block (S j) slots' data'
  end.

(** The body of [if el.curved:] for element number [i].  [V] and the
    arrays behind [sub(c).dat.data] are views of one buffer, [data]; block
    [i] of [curvedPhysPts] is read and replaced in this pass only. *)
Definition curve_element (ncomp npts : nat) (getIdx : Z → Z)
    (cellMap : list (list Z)) (physPts curvedPhysPts : list (list (list scalar)))
    (i : nat) (data : list (list scalar)) : result (list (list scalar)) :=
  let! phys := np_get physPts (Z.of_nat i) in
  let! cell := np_get cellMap (getIdx (Z.of_nat i)) in
  let! rows := mapM (np_get data) cell in
  let! p := match_points (take npts phys) (take npts rows) in
  let! cur := np_get curvedPhysPts (Z.of_nat i) in
  let! permuted := mapM (λ k, np_get cur (Z.of_nat k)) p in
  let! block := assign_block npts permuted in
  write_loop ncomp block 0 (take npts cell) data.

(** The loop over the elements (lines 87-97, 110-121), from number [i]. *)
Fixpoint curve_loop (ncomp npts : nat) (getIdx : Z → Z)
    (cellMap : list (list Z)) (physPts curvedPhysPts : list (list (list scalar)))
    (i : nat) (els : list Element) (data : list (list scalar))
  : result (list (list scalar)) :=
  match els with
  | [] => Ok data
  | el :: rest =>
      let! data' :=
        if curved el
        then curve_element ncomp npts getIdx cellMap physPts curvedPhysPts i data
        else Ok data in
      curve_loop ncomp npts getIdx cellMap physPts curvedPhysPts (S i) rest data'
  end.

(** Lines 76-97 with [elements := Elements2D], lines 99-121 with
    [elements := Elements3D]: the data array and the Netgen mesh when the
    block ends. *)
Definition curve_block (elements : ngmesh → list Element) (gdim : nat)
    (order : Z) (getIdx : Z → Z) (cellMap : list (list Z))
    (refPts : list (list scalar)) (mesh : ngmesh) (data : list (list scalar))
  : result (list (list scalar)) * ngmesh :=
  let npts := length refPts in
  let physPts :=
    ndarray3 (length (elements mesh)) npts gdim (CalcElementMapping mesh refPts) in
  let mesh' := Curve order mesh in
  let curvedPhysPts :=
    ndarray3 (length (elements mesh')) npts gdim (CalcElementMapping mesh' refPts) in
  (curve_loop gdim npts getIdx cellMap physPts curvedPhysPts 0 (elements mesh') data,
   mesh').

(** Lines 71-74. *)
Definition reference_points (cell : Cell) (gdim order : Z) (ents : list (Z * Z))
  : list (list scalar) :=
  foldl (λ refPts ij,
           if decide (ij.1 < gdim) then refPts ++ make_points cell ij.1 ij.2 order
           else refPts)
        [] ents.

(** The result and the Netgen mesh of [self] when the call ends. *)
Definition curveField (self : MeshGeometry) (order : Z)
  : result Function * ngmesh :=
  let newFunctionCoordinates := interpolate_coordinates self order in
  let getIdx := getOffset (cell_numbering self) in
  let gdim := geometric_dimension self in
  match sub_entities (ref_el newFunctionCoordinates) gdim with
  | None => (Raise KeyError, netgen_mesh self)
  | Some ents =>
      let refPts := reference_points (ref_el newFunctionCoordinates) gdim order ents in
      let cellMap := cell_node_map_values newFunctionCoordinates in
      let '(r2, mesh2) :=
        if decide (gdim = 2)
        then curve_block Elements2D 2 order getIdx cellMap refPts
               (netgen_mesh self) (dat_data newFunctionCoordinates)
        else (Ok (dat_data newFunctionCoordinates), netgen_mesh self) in
      match r2 with
      | Raise e => (Raise e, mesh2)
      | Ok data2 =>
          let '(r3, mesh3) :=
            if decide (gdim = 3)
            then curve_block Elements3D 3 order getIdx cellMap refPts mesh2 data2
            else (Ok data2, mesh2) in
          match r3 with
          | Raise e => (Raise e, mesh3)
          | Ok data3 =>
              (Ok {| dat_data := data3;
                     cell_node_map_values := cellMap;
                     ref_el := ref_el newFunctionCoordinates |},
               mesh3)
          end
      end
  end.

(** The elements the loop of [curveField] runs over. *)
Definition serial_elements (gdim : Z) (m : ngmesh) : list Element :=
  if decide (gdim = 2) then Elements2D m
  else if decide (gdim = 3) then Elements3D m
  else [].

(** Row [k] of the data array is a node of the cell the serial element
    number [i] is resolved to. *)
Definition cell_node (f : Function) (getIdx : Z → Z) (i k : nat) : Prop :=
  ∃ cell datIdx,
    np_get (cell_node_map_values f) (getIdx (Z.of_nat i)) = Ok cell ∧
    datIdx ∈ cell ∧
    np_index (length (dat_data f)) datIdx = Some k.

(** The rounded [row] equals none of the rounded points [phys]. *)
Definition unmatched (phys : list (list scalar)) (row : list scalar) : Prop :=
  ∀ pt, pt ∈ phys → tuple_eqb (round_tuple pt) (round_tuple row) = false.

(** Among the first [npts] nodes of the cell of element number [i], a row
    of [data] equals, after rounding, none of the element's rounded
    straight-sided points. *)
Definition has_unmatched_row (npts : nat) (getIdx : Z → Z)
    (cellMap : list (list Z)) (physPts : list (list (list scalar)))
    (data : list (list scalar)) (i : nat) : Prop :=
  ∃ phys cell rows row,
    np_get physPts (Z.of_nat i) = Ok phys ∧
    np_get cellMap (getIdx (Z.of_nat i)) = Ok cell ∧
    mapM (np_get data) cell = Ok rows ∧
    row ∈ take npts rows ∧ unmatched (take npts phys) row.

(** Every row of [data] has at least [ncomp] columns. *)
Definition has_columns (ncomp : nat) (data : list (list scalar)) : Prop :=
  Forall (λ row, (ncomp ≤ length row)%nat) data.

(** Each of the first [nel] elements is resolved to a cell of the map
    that has at least [npts] nodes, all of them rows of the data array. *)
Definition well_shaped (nel npts : nat) (f : Function) (getIdx : Z → Z) : Prop :=
  ∀ i, (i < nel)%nat →
    ∃ cell, np_get (cell_node_map_values f) (getIdx (Z.of_nat i)) = Ok cell ∧
            (npts ≤ length cell)%nat ∧
            Forall (λ d, is_Some (np_index (length (dat_data f)) d)) cell.

(** No row of the data array is a node of two of the first [nel]
    elements: the space is discontinuous. *)
Definition disjoint_cells (nel : nat) (f : Function) (getIdx : Z → Z) : Prop :=
  ∀ i j k, (i < nel)%nat → (j < nel)%nat → i ≠ j →
           cell_node f getIdx i k → cell_node f getIdx j k → False.

End Curving.

(** ** FiredrakeMesh.__init__ *)

(** The objects a caller may pass as [mesh], by class. *)
Inductive pytype : Type :=
  | NoneType
  | ngsolve_comp_Mesh
  | netgen_meshing_Mesh
  | PETSc_DMPlex
  | object.

#[global] Instance pytype_eq_dec : EqDecision pytype.
Proof. solve_decision. Defined.

Inductive pyobj `{PETSc} : Type :=
  | PyNone
  | NgsolveMesh (m : ngmesh)
  | NetgenMesh (m : ngmesh)
  | DMPlex (plex : DM)
  | PyObject.

(** The values found under a key of [netgen_flags]. *)
Inductive flag_value `{PETSc} : Type :=
  | FlagNone
  | FlagBool (b : bool)
  | FlagTransform (t : DMPlexTransform).

(** [ngsPETSc.MeshMapping]: the bridge between a serial mesh and a plex. *)
Class Bridge `{PETSc} : Type := {
  MeshMap : Type;
  MeshMapping : pyobj → MeshMap;
  petscPlex : MeshMap → DM;
  ngMesh : MeshMap → ngmesh
}.

Record FiredrakeMesh `{Bridge} : Type := mkFiredrakeMesh {
  comm : Comm;
  meshMap : MeshMap
}.

Section Construction.
Context `{PETSc, Netgen, !Bridge}.

Definition type_of (o : pyobj) : pytype :=
  match o with
  | PyNone => NoneType
  | NgsolveMesh _ => ngsolve_comp_Mesh
  | NetgenMesh _ => netgen_meshing_Mesh
  | DMPlex _ => PETSc_DMPlex
  | PyObject => object
  end.

(** Lines 17-24: the name [ngs.comp.Mesh] after the import of [ngsolve]
    succeeded ([true]) or failed ([false]). *)
Definition ngs_comp_Mesh (ngsolve_imported : bool) : pytype :=
  if ngsolve_imported then ngsolve_comp_Mesh else NoneType.

Definition ngm_Mesh_class : pytype := netgen_meshing_Mesh.

Definition isinstance (o : pyobj) (classes : list pytype) : bool :=
  bool_decide (type_of o ∈ classes).

Definition flag_truthy (v : flag_value) : bool :=
  match v with
  | FlagNone => false
  | FlagBool b => b
  | FlagTransform _ => true
  end.

(** [mesh.Split2Tets()] *)
Definition call_Split2Tets (mesh : pyobj) : result pyobj :=
  match mesh with
  | NetgenMesh m => Ok (NetgenMesh (Split2Tets m))
  | NgsolveMesh m => Ok (NgsolveMesh (Split2Tets m))
  | _ => Raise AttributeError
  end.

(** Lines 135-139: the mesh after the step and the warnings emitted. *)
Definition purify_step (mesh : pyobj) (netgen_flags : gmap string flag_value)
  : result pyobj * list string :=
  match netgen_flags !! "purify_to_tets" with
  | Some v => if flag_truthy v then (call_Split2Tets mesh, []) else (Ok mesh, [])
  | None =>
      (Ok mesh, ["No purify_to_tets flag found, mesh will not be purified to tets."])
  end.

(** Lines 143-152. *)
Definition quad_step (mm : MeshMap) (netgen_flags : gmap string flag_value)
  : result MeshMap * list string :=
  match netgen_flags !! "quad" with
  | Some v =>
      if flag_truthy v
      then (Ok (MeshMapping (DMPlex (transform_apply REFINETOBOX (petscPlex mm)))), [])
      else (Ok mm, [])
  | None => (Ok mm, ["No quad flag found, mesh will not be quadrilateralised."])
  end.

(** Lines 153-161. *)
Definition transform_step (mm : MeshMap) (netgen_flags : gmap string flag_value)
  : result MeshMap * list string :=
  match netgen_flags !! "transform" with
  | Some FlagNone => (Ok mm, [])
  | Some (FlagTransform t) =>
      (Ok (MeshMapping (DMPlex (transform_apply t (petscPlex mm)))), [])
  | Some (FlagBool _) => (Raise AttributeError, [])
  | None => (Ok mm, ["No PETSc transform found, mesh will not be transformed."])
  end.

(** The constructor: its result, the warnings in the order emitted, and
    the object passed as [mesh] when the call ends. *)
Definition FiredrakeMesh_init (ngsolve_imported : bool) (mesh : pyobj)
    (netgen_flags : gmap string flag_value) (user_comm : Comm)
  : result FiredrakeMesh * list string * pyobj :=
  if isinstance mesh [ngs_comp_Mesh ngsolve_imported; ngm_Mesh_class] then
    match purify_step mesh netgen_flags with
    | (Raise e, w1) => (Raise e, w1, mesh)
    | (Ok mesh1, w1) =>
        let mm1 := MeshMapping mesh1 in
        match quad_step mm1 netgen_flags with
        | (Raise e, w2) => (Raise e, w1 ++ w2, mesh1)
        | (Ok mm2, w2) =>
            match transform_step mm2 netgen_flags with
            | (Raise e, w3) => (Raise e, w1 ++ w2 ++ w3, mesh1)
            | (Ok mm3, w3) =>
                (Ok {| comm := user_comm; meshMap := mm3 |}, w1 ++ w2 ++ w3, mesh1)
            end
        end
    end
  else (Raise (ValueError "Mesh format not recognised."), [], mesh).

(** The warning a missing key produces, none when the key is there. *)
Definition warning_if_absent (netgen_flags : gmap string flag_value)
    (key message : string) : list string :=
  match netgen_flags !! key with
  | Some _ => []
  | None => [message]
  end.

End Construction.

(** ** A small instance of the collaborators

    Two triangles, a permutation as scatter map, a refinement that splits a
    flagged element in four, a curving that bends the first element.  The
    examples below run the three operations on it. *)

Module Sample.

(** The scatter map lists, for every serial cell, its position in the
    local array. *)
#[export] Instance petsc : PETSc := {|
  SF := list nat;
  DM := unit;
  Comm := nat;
  DMPlexTransform := nat;
  distributeField := λ _ sf sec v, (sec, omap (λ k, v !! k) sf);
  REFINETOBOX := 0%nat;
  transform_apply := λ _ dm, dm
|}.

Definition top_elements (m : ngmesh) : list Element :=
  if decide (dim m = 3) then Elements3D m else Elements2D m.

Definition bend_first (els : list Element) : list Element :=
  match els with
  | [] => []
  | el :: rest =>
      {| refine := refine el; curved := true; vertices := vertices el |} :: rest
  end.

(** Point [pt] of element [el]: mantissa [10 * el + pt + 1], exponent the
    component, negated on a curved element. *)
Definition mapped_point (m : ngmesh) (el pt c : nat) : scalar :=
  S754_finite
    (match top_elements m !! el with Some e => curved e | None => false end)
    (Pos.of_succ_nat (10 * el + pt)) (Z.of_nat c).

#[export] Instance netgen : Netgen := {|
  Refine := λ m,
    set_Elements2D
      (flat_map (λ el, if refine el then replicate 4 el else [el]) (Elements2D m)) m;
  Curve := λ order m,
    if decide (1 < order)
    then {| dim := dim m;
            Elements2D := bend_first (Elements2D m);
            Elements3D := bend_first (Elements3D m) |}
    else m;
  CalcElementMapping := λ m _ el pt c, mapped_point m el pt c;
  Split2Tets := λ m, m
|}.

#[export] Instance python : Python := {| round := λ x _, x |}.

(** A triangle: three vertices and three edges below the cell; an edge
    has two vertices below it. *)
#[export] Instance fiat : FIAT := {|
  Cell := unit;
  sub_entities := λ _ d,
    if decide (d = 2) then Some [(0, 0); (0, 1); (0, 2); (1, 0); (1, 1); (1, 2); (2, 0)]
    else if decide (d = 1) then Some [(0, 1); (0, 2); (1, 0)]
    else if decide (d = 0) then Some [(0, 0)]
    else None;
  make_points := λ _ i j order,
    if decide (i = 0) then [[S754_zero false; S754_zero false]]
    else replicate (Z.to_nat (order - 1)) [S754_zero false; S754_zero false]
|}.

(** The DG coordinates: cell [c] owns nodes [n*c .. n*c + n - 1], which
    hold the straight-sided points of the cell in reverse order. *)
Definition dg_rows (m : ngmesh) (n : nat) : list (list scalar) :=
  flat_map (λ c, (λ l, [mapped_point m c (n - 1 - l) 0; mapped_point m c (n - 1 - l) 1])
                   <$> seq 0 n)
           (seq 0 (length (top_elements m))).

Definition dg_cell_nodes (m : ngmesh) (n : nat) : list (list Z) :=
  (λ c, (λ l, Z.of_nat (n * c + l)) <$> seq 0 n) <$> seq 0 (length (top_elements m)).

#[export] Instance firedrake : Firedrake := {|
  interpolate_coordinates := λ self order,
    {| dat_data := dg_rows (netgen_mesh self) (Z.to_nat (3 * order));
       cell_node_map_values := dg_cell_nodes (netgen_mesh self) (Z.to_nat (3 * order));
       ref_el := () |}
|}.

#[export] Instance bridge : Bridge := {|
  MeshMap := pyobj;
  MeshMapping := λ mesh, mesh;
  petscPlex := λ _, ();
  ngMesh := λ mm, match mm with
                  | NgsolveMesh m | NetgenMesh m => m
                  | _ => ngm_Mesh 3
                  end
|}.

Definition triangle (a b c : nat) : Element :=
  {| refine := false; curved := false; vertices := [a; b; c] |}.

Definition square : ngmesh :=
  {| dim := 2; Elements2D := [triangle 0 1 2; triangle 1 3 2]; Elements3D := [] |}.

(** [square] wrapped on a single worker. *)
Definition serial (gdim : Z) : MeshGeometry :=
  {| geometric_dimension := gdim;
     cell_numbering := {| getOffset := λ x, x |};
     sfBCInv := None;
     topology_dm := ();
     comm_rank := 0;
     netgen_mesh := square |}.

(** [square] on rank [rank] of a run on several workers, cells swapped. *)
Definition parallel (rank : nat) : MeshGeometry :=
  {| geometric_dimension := 2;
     cell_numbering := {| getOffset := λ x, 1 - x |};
     sfBCInv := Some [1; 0]%nat;
     topology_dm := ();
     comm_rank := rank;
     netgen_mesh := if decide (rank = 0%nat) then square else ngm_Mesh 2 |}.

Definition one : scalar := S754_finite false 1 0.
Definition zero : scalar := S754_zero false.

(** [square] with its two cells numbered the other way round. *)
Definition swapped : MeshGeometry :=
  {| geometric_dimension := 2;
     cell_numbering := {| getOffset := λ x, 1 - x |};
     sfBCInv := None;
     topology_dm := ();
     comm_rank := 0;
     netgen_mesh := square |}.

(** What [curveField] returns on [serial 2] at order 2. *)
Definition curved_field : Function :=
  match (curveField (serial 2) 2).1 with
  | Ok f => f
  | Raise _ => interpolate_coordinates (serial 2) 2
  end.

(** The sub-entities of the triangle, as [fiat] lists them. *)
Definition triangle_entities : list (Z * Z) :=
  [(0, 0); (0, 1); (0, 2); (1, 0); (1, 1); (1, 2); (2, 0)].

End Sample.

(** ** FiredrakeMesh.createFromTopology *)

(** The Firedrake topology handed to [createFromTopology], the
    communicator, and the PETSc calls of lines 173 and 183. *)
Class Topology `{PETSc} : Type := {
  MeshTopology : Type;
  (** [topology.topology_dm] *)
  topology_plex : MeshTopology → DM;
  (** [topology._cell_numbering] *)
  topology_cell_numbering : MeshTopology → PetscSection;
  (** [topology.sfBC] *)
  topology_sfBC : MeshTopology → SF;
  (** [dm.getCoordinateDim()] *)
  getCoordinateDim : DM → Z;
  (** [sf.createInverse()] *)
  createInverse : SF → SF;
  (** [comm.Get_size()] and [comm.Get_rank()] *)
  Get_size : Comm → nat;
  Get_rank : Comm → nat
}.

(** Lines 172-186: the mesh geometry stored in [self.firedrakeMesh], as far
    as [refineMarkedElements] and [curveField] read it.  The geometry is
    bound to the topology (line 178), whose plex, cell numbering and
    scatter map it exposes; its geometric dimension is the coordinate
    dimension of the plex (lines 173-175).  The name of the mesh and the
    registration of the two methods on the class (lines 187-188) have no
    counterpart here. *)
Definition createFromTopology `{Topology, !Bridge} (self : FiredrakeMesh)
    (topology : MeshTopology) : MeshGeometry :=
  {| geometric_dimension := getCoordinateDim (topology_plex topology);
     cell_numbering := topology_cell_numbering topology;
     sfBCInv := if decide (1 < Get_size (comm self))%nat
                then Some (createInverse (topology_sfBC topology))
                else None;
     topology_dm := topology_plex topology;
     comm_rank := Get_rank (comm self);
     netgen_mesh := ngMesh (meshMap self) |}.

(** ** Further notions used in the statements *)

(** The first [npts] nodes of the cell of each of the first [nel] elements
    are pairwise distinct rows of the data array. *)
Definition distinct_nodes `{FIAT} (nel npts : nat) (f : Function)
    (getIdx : Z → Z) : Prop :=
  ∀ i cell, (i < nel)%nat →
    np_get (cell_node_map_values f) (getIdx (Z.of_nat i)) = Ok cell →
    NoDup (np_index (length (dat_data f)) <$> take npts cell).

(** [self] with another array of 2D elements in its serial mesh. *)
Definition with_Elements2D `{PETSc} (els : list Element) (self : MeshGeometry)
  : MeshGeometry :=
  {| geometric_dimension := geometric_dimension self;
     cell_numbering := cell_numbering self;
     sfBCInv := sfBCInv self;
     topology_dm := topology_dm self;
     comm_rank := comm_rank self;
     netgen_mesh := set_Elements2D els (netgen_mesh self) |}.

(** An element without its [refine] flag. *)
Definition geometry_of (el : Element) : bool * list nat :=
  (curved el, vertices el).

(** The loop result of [curveField] in dimension 2 or 3, once the entity
    table has been read. *)
Definition curve_loop_of `{PETSc, Netgen, Python, FIAT, !Firedrake}
    (self : MeshGeometry) (order : Z) (ents : list (Z * Z))
  : result (list (list scalar)) :=
  let f := interpolate_coordinates self order in
  let gdim := geometric_dimension self in
  let refPts := reference_points (ref_el f) gdim order ents in
  curve_loop (Z.to_nat gdim) (length refPts) (getOffset (cell_numbering self))
    (cell_node_map_values f)
    (ndarray3 (length (serial_elements gdim (netgen_mesh self))) (length refPts)
       (Z.to_nat gdim) (CalcElementMapping (netgen_mesh self) refPts))
    (ndarray3 (length (serial_elements gdim (Curve order (netgen_mesh self))))
       (length refPts) (Z.to_nat gdim)
       (CalcElementMapping (Curve order (netgen_mesh self)) refPts))
    0 (serial_elements gdim (Curve order (netgen_mesh self)))
    (dat_data f).

(** A second small instance: a topology on [n] workers. *)
Module SampleTopology.
Import Sample.

#[export] Instance topology (size rank : nat) : Topology := {|
  MeshTopology := Z;
  topology_plex := λ _, ();
  topology_cell_numbering := λ _, {| getOffset := λ x, x |};
  topology_sfBC := λ _, [0; 1]%nat;
  getCoordinateDim := λ _, 2;
  createInverse := λ sf, reverse sf;
  Get_size := λ _, size;
  Get_rank := λ _, rank
|}.

Definition wrapped : FiredrakeMesh :=
  {| comm := 0%nat; meshMap := NetgenMesh square |}.

(** [square] with a cell numbering that points past the cell-node map. *)
Definition shifted : MeshGeometry :=
  {| geometric_dimension := 2;
     cell_numbering := {| getOffset := λ x, x + 5 |};
     sfBCInv := None;
     topology_dm := ();
     comm_rank := 0;
     netgen_mesh := square |}.

(** [square] with a cell numbering of negative offsets. *)
Definition negative : MeshGeometry :=
  {| geometric_dimension := 2;
     cell_numbering := {| getOffset := λ x, x - 2 |};
     sfBCInv := None;
     topology_dm := ();
     comm_rank := 0;
     netgen_mesh := square |}.

(** The two triangles of [square], flagged for refinement beforehand. *)
Definition flagged_triangles : list Element :=
  [set_refine true (triangle 0 1 2); set_refine true (triangle 1 3 2)].

(** Every preprocessing step requested. *)
Definition all_flags : gmap string flag_value :=
  <["purify_to_tets" := FlagBool true]>
    (<["quad" := FlagBool true]> (<["transform" := FlagTransform 7%nat]> ∅)).

(** Coordinates with seven nodes a cell: the six boundary nodes of
    [firedrake] at order 2 and a seventh whose row is no sample point. *)
Definition interior_row : list scalar :=
  [S754_finite false 99 0; S754_finite false 99 1].

Definition interior_rows (m : ngmesh) : list (list scalar) :=
  flat_map (λ c, ((λ l, [mapped_point m c (5 - l) 0; mapped_point m c (5 - l) 1])
                    <$> seq 0 6) ++ [interior_row])
           (seq 0 (length (top_elements m))).

Definition interior_cell_nodes (m : ngmesh) : list (list Z) :=
  (λ c, (λ l, Z.of_nat (7 * c + l)) <$> seq 0 7) <$> seq 0 (length (top_elements m)).

Definition with_interior_node : Firedrake := {|
  interpolate_coordinates := λ self order,
    {| dat_data := interior_rows (netgen_mesh self);
       cell_node_map_values := interior_cell_nodes (netgen_mesh self);
       ref_el := () |}
|}.

(** Three sample points, the first and the last coincident. *)
Definition coincident_points : list (list scalar) := [[one]; [zero]; [one]].

End SampleTopology.

(** ** Facts about the shared helpers *)

Lemma np_index_lt (n : nat) (k : Z) (j : nat) :
  np_index n k = Some j → (j < n)%nat.
Proof.
  unfold np_index. intros Hj.
  repeat case_decide; simplify_eq; lia.
Qed.

Lemma np_index_nonneg (n : nat) (j : nat) :
  (j < n)%nat → np_index n (Z.of_nat j) = Some j.
Proof.
  intros Hj. unfold np_index.
  rewrite decide_True by lia. by rewrite Nat2Z.id.
Qed.

Lemma np_index_beyond (n : nat) (j : nat) :
  (n ≤ j)%nat → np_index n (Z.of_nat j) = None.
Proof.
  intros Hj. unfold np_index. by rewrite !decide_False by lia.
Qed.

Lemma np_get_raises {A : Type} (a : list A) (k : Z) (e : exn) :
  np_get a k = Raise e → e = IndexError.
Proof.
  unfold np_get. destruct (np_index (length a) k ≫= _); congruence.
Qed.

Lemma np_get_Ok {A : Type} (a : list A) (k : Z) (x : A) :
  np_get a k = Ok x ↔ ∃ j, np_index (length a) k = Some j ∧ a !! j = Some x.
Proof.
  unfold np_get. split.
  - destruct (np_index (length a) k) as [j|] eqn:Hj; simpl; [|done].
    destruct (a !! j) eqn:Hx; [|done]. intros [= ->]. eauto.
  - intros (j & -> & Hx). simpl. by rewrite Hx.
Qed.

Lemma np_get_valid {A : Type} (a : list A) (k : Z) :
  is_Some (np_index (length a) k) → ∃ x, np_get a k = Ok x.
Proof.
  intros [j Hj]. destruct (lookup_lt_is_Some_2 a j) as [x Hx].
  { by eapply np_index_lt. }
  exists x. apply np_get_Ok. eauto.
Qed.

Lemma np_get_nat {A : Type} (a : list A) (j : nat) (x : A) :
  a !! j = Some x → np_get a (Z.of_nat j) = Ok x.
Proof.
  intros Hx. apply np_get_Ok. exists j. split; [|done].
  apply np_index_nonneg. by eapply lookup_lt_Some.
Qed.

Lemma bind_Ok {A B : Type} (r : result A) (k : A → result B) (b : B) :
  bind r k = Ok b ↔ ∃ a, r = Ok a ∧ k a = Ok b.
Proof.
  destruct r as [a|e]; simpl; split.
  - intros Hk. by exists a.
  - by intros (a' & [= <-] & Hk).
  - done.
  - by intros (a' & Hr & _).
Qed.

Lemma bind_Raise {A B : Type} (r : result A) (k : A → result B) (e : exn) :
  bind r k = Raise e ↔ r = Raise e ∨ ∃ a, r = Ok a ∧ k a = Raise e.
Proof.
  destruct r as [a|e']; simpl; split.
  - intros Hk. right. by exists a.
  - intros [Hr|(a' & [= <-] & Hk)]; done.
  - intros [= ->]. by left.
  - intros [[= ->]|(a' & Hr & _)]; done.
Qed.

(** ** Properties of refineMarkedElements *)

Section RefinementProperties.
Context `{PETSc, Netgen}.

Lemma mark_loop_raises mark getIdx i els e els' :
  mark_loop mark getIdx i els = (Some e, els') → e = IndexError.
Proof.
  revert i els'. induction els as [|el rest IH]; intros i els'; simpl; [done|].
  destruct (np_get mark (getIdx (Z.of_nat i))) as [v|e'] eqn:Hget.
  - destruct (mark_loop mark getIdx (S i) rest) as [r rest'] eqn:Hrest.
    intros [= -> <-]. by eapply IH.
  - intros [= <- <-]. by eapply np_get_raises.
Qed.

(** A loop that ends normally has tested [mark[getIdx(i)]] for every
    element and stored its truth value in the element's flag. *)
Lemma mark_loop_flags mark getIdx i els els' :
  mark_loop mark getIdx i els = (None, els') →
  length els' = length els ∧
  ∀ k el, els !! k = Some el →
    ∃ v, np_get mark (getIdx (Z.of_nat (i + k))) = Ok v ∧
         els' !! k = Some (set_refine (truthy v) el).
Proof.
  revert i els'. induction els as [|el rest IH]; intros i els'; simpl.
  - intros [= <-]. split; [done|]. intros k el. by rewrite lookup_nil.
  - destruct (np_get mark (getIdx (Z.of_nat i))) as [v|e'] eqn:Hget; [|done].
    destruct (mark_loop mark getIdx (S i) rest) as [r rest'] eqn:Hrest.
    intros [= -> <-]. destruct (IH _ _ Hrest) as [Hlen Hflags].
    split; [simpl; by rewrite Hlen|].
    intros [|k] el0 Hel0; simpl in *.
    + simplify_eq. exists v. rewrite Nat.add_0_r. split; [done|].
      by destruct (truthy v).
    + destruct (Hflags k el0 Hel0) as (w & Hw & Hk). exists w.
      split; [|done]. by replace (i + S k)%nat with (S i + k)%nat by lia.
Qed.

(** When every index the loop computes is inside the array, the loop ends
    normally. *)
Lemma mark_loop_total mark getIdx i els :
  (∀ k, (k < length els)%nat →
        is_Some (np_index (length mark) (getIdx (Z.of_nat (i + k))))) →
  ∃ els', mark_loop mark getIdx i els = (None, els').
Proof.
  revert i. induction els as [|el rest IH]; intros i Hvalid; simpl; [eauto|].
  destruct (np_get_valid mark (getIdx (Z.of_nat i))) as [v ->].
  { specialize (Hvalid 0%nat). rewrite Nat.add_0_r in Hvalid.
    apply Hvalid. simpl. lia. }
  destruct (IH (S i)) as [rest' ->]; [|eauto].
  intros k Hk. replace (S i + k)%nat with (i + S k)%nat by lia.
  apply Hvalid. simpl. lia.
Qed.

(** C3: [refineMarkedElements] raises [NotImplementedError] exactly when
    the geometric dimension is not 2, and the Netgen mesh (its elements'
    [refine] flags included) is then the one the call started with. *)
Theorem refine_dimension_guard (self : MeshGeometry) (mark : list scalar) :
  ((∃ msg, (refineMarkedElements self mark).1 = Raise (NotImplementedError msg))
     ↔ geometric_dimension self ≠ 2)
  ∧ (∀ msg, (refineMarkedElements self mark).1 = Raise (NotImplementedError msg) →
            (refineMarkedElements self mark).2 = netgen_mesh self).
Proof.
  unfold refineMarkedElements.
  destruct (decide (geometric_dimension self = 2)) as [Hdim|Hdim].
  - destruct (reconcile self mark) as [getIdx marked0].
    assert (∀ msg,
      (if decide (comm_rank self = 0%nat)
       then let '(r, els) := mark_loop marked0 getIdx 0
                               (Elements2D (netgen_mesh self)) in
            match r with
            | Some e => (Raise e, set_Elements2D els (netgen_mesh self))
            | None => (Ok (fd_Mesh (Refine (set_Elements2D els (netgen_mesh self)))),
                       Refine (set_Elements2D els (netgen_mesh self)))
            end
       else (Ok (fd_Mesh (ngm_Mesh 2)), netgen_mesh self)).1
      ≠ Raise (NotImplementedError msg)) as Hno.
    { intros msg. case_decide; [|done].
      destruct (mark_loop _ _ _ _) as [[e|] els] eqn:Hloop; [|done].
      apply mark_loop_raises in Hloop as ->. done. }
    split; [split|].
    + intros [msg Hmsg]. by apply Hno in Hmsg.
    + done.
    + intros msg Hmsg. by apply Hno in Hmsg.
  - simpl. split; [split|]; eauto.
Qed.

Lemma refine_rank0 (self : MeshGeometry) (mark : list scalar) :
  geometric_dimension self = 2 →
  comm_rank self = 0%nat →
  marks_in_range self mark →
  ∃ els,
    length els = length (Elements2D (netgen_mesh self)) ∧
    (∀ i el, Elements2D (netgen_mesh self) !! i = Some el →
       ∃ v, np_get (reconcile self mark).2
                   ((reconcile self mark).1 (Z.of_nat i)) = Ok v ∧
            els !! i = Some (set_refine (truthy v) el)) ∧
    refineMarkedElements self mark =
      (Ok (fd_Mesh (Refine (set_Elements2D els (netgen_mesh self)))),
       Refine (set_Elements2D els (netgen_mesh self))).
Proof.
  intros Hdim Hrank Hvalid. unfold refineMarkedElements, marks_in_range in *.
  rewrite decide_True by done.
  destruct (reconcile self mark) as [getIdx marked0]; simpl in *.
  rewrite decide_True by done.
  destruct (mark_loop_total marked0 getIdx 0 (Elements2D (netgen_mesh self)))
    as [els Hloop]; [done|].
  rewrite Hloop. destruct (mark_loop_flags _ _ _ _ _ Hloop) as [Hlen Hflags].
  exists els. split_and!; done.
Qed.

(** C4: on a 2D mesh, rank 0 hands to [Refine] the serial mesh in which
    the [refine] flag of every element [i] is [bool(mark[getIdx(i)])]
    ([True] exactly when the resolved mark is truthy) and nothing else has
    changed (the indices being inside the resolved array), and returns the
    Firedrake mesh of the refined serial mesh; every other rank returns the
    Firedrake mesh of an empty 2D placeholder and leaves its serial mesh
    alone. *)
Theorem refine_flags_then_refines (self : MeshGeometry) (mark : list scalar) :
  geometric_dimension self = 2 →
  (comm_rank self = 0%nat →
   marks_in_range self mark →
   ∃ flagged,
     length (Elements2D flagged) = length (Elements2D (netgen_mesh self)) ∧
     (∀ i el, Elements2D (netgen_mesh self) !! i = Some el →
        ∃ v el',
          np_get (reconcile self mark).2
                 ((reconcile self mark).1 (Z.of_nat i)) = Ok v ∧
          Elements2D flagged !! i = Some el' ∧
          refine el' = truthy v ∧
          curved el' = curved el ∧ vertices el' = vertices el) ∧
     dim flagged = dim (netgen_mesh self) ∧
     Elements3D flagged = Elements3D (netgen_mesh self) ∧
     refineMarkedElements self mark =
       (Ok (fd_Mesh (Refine flagged)), Refine flagged))
  ∧ (comm_rank self ≠ 0%nat →
     Elements2D (ngm_Mesh 2) = [] ∧ Elements3D (ngm_Mesh 2) = [] ∧
     dim (ngm_Mesh 2) = 2 ∧
     refineMarkedElements self mark =
       (Ok (fd_Mesh (ngm_Mesh 2)), netgen_mesh self)).
Proof.
  intros Hdim. split.
  - intros Hrank Hvalid.
    destruct (refine_rank0 self mark Hdim Hrank Hvalid) as (els & Hlen & Hflags & Hres).
    exists (set_Elements2D els (netgen_mesh self)).
    split_and!; [done| |done|done|done].
    intros i el Hel. destruct (Hflags i el Hel) as (v & Hv & Hi).
    exists v, (set_refine (truthy v) el). split_and!; done.
  - intros Hrank. split_and!; [done..|]. unfold refineMarkedElements.
    rewrite decide_True by done.
    destruct (reconcile self mark) as [getIdx marked0].
    by rewrite decide_False.
Qed.

(** C5: without an inverse scatter map the array indexed is the marking
    array itself and element [i] is resolved through
    [cell_numbering.getOffset(i)]; with one, the array is the marking
    array redistributed through it and element [i] is resolved to [i].
    The flags a successful rank-0 call hands to [Refine] are read exactly
    there. *)
Theorem index_reconciliation (self : MeshGeometry) (mark : list scalar) :
  (sfBCInv self = None →
     (reconcile self mark).2 = mark ∧
     ∀ i, (reconcile self mark).1 i = getOffset (cell_numbering self) i)
  ∧ (∀ sf, sfBCInv self = Some sf →
     (reconcile self mark).2 =
       (distributeField (topology_dm self) sf (cell_numbering self) mark).2 ∧
     ∀ i, (reconcile self mark).1 i = i)
  ∧ (∀ fm m', geometric_dimension self = 2 → comm_rank self = 0%nat →
     refineMarkedElements self mark = (Ok fm, m') →
     ∃ els, m' = Refine (set_Elements2D els (netgen_mesh self)) ∧
       ∀ i el, Elements2D (netgen_mesh self) !! i = Some el →
         ∃ v, els !! i = Some (set_refine (truthy v) el) ∧
           match sfBCInv self with
           | None => np_get mark (getOffset (cell_numbering self) (Z.of_nat i))
           | Some sf =>
               np_get (distributeField (topology_dm self) sf
                         (cell_numbering self) mark).2 (Z.of_nat i)
           end = Ok v).
Proof.
  split_and!.
  - intros Hsf. unfold reconcile. by rewrite Hsf.
  - intros sf Hsf. unfold reconcile. by rewrite Hsf.
  - intros fm m' Hdim Hrank. unfold refineMarkedElements.
    rewrite decide_True by done.
    assert (reconcile self mark =
            match sfBCInv self with
            | Some sf => (λ x, x, (distributeField (topology_dm self) sf
                                     (cell_numbering self) mark).2)
            | None => (getOffset (cell_numbering self), mark)
            end) as -> by done.
    destruct (sfBCInv self) as [sf|]; rewrite decide_True by done.
    + destruct (mark_loop _ _ _ _) as [[e|] els] eqn:Hloop; [done|].
      intros [= <- <-]. exists els. split; [done|].
      destruct (mark_loop_flags _ _ _ _ _ Hloop) as [_ Hflags].
      intros i el Hel. destruct (Hflags i el Hel) as (v & Hv & Hi). eauto.
    + destruct (mark_loop _ _ _ _) as [[e|] els] eqn:Hloop; [done|].
      intros [= <- <-]. exists els. split; [done|].
      destruct (mark_loop_flags _ _ _ _ _ Hloop) as [_ Hflags].
      intros i el Hel. destruct (Hflags i el Hel) as (v & Hv & Hi). eauto.
Qed.

(** C8: when every value of the marking field is falsy (and stays so
    through the redistribution), every index is in range, a rank other
    than 0 holds the empty placeholder, and [Refine] keeps the number of
    elements of a mesh none of whose elements is flagged, then the call
    sets every [refine] flag to [False] and returns a mesh with as many
    elements as the input. *)
Theorem all_false_marking (self : MeshGeometry) (mark : list scalar) :
  geometric_dimension self = 2 →
  Forall (λ v, truthy v = false) mark →
  (∀ dm sf sec v, Forall (λ x, truthy x = false) v →
                  Forall (λ x, truthy x = false) (distributeField dm sf sec v).2) →
  marks_in_range self mark →
  (comm_rank self ≠ 0%nat → Elements2D (netgen_mesh self) = []) →
  (∀ m, Forall (λ el, refine el = false) (Elements2D m) →
        length (Elements2D (Refine m)) = length (Elements2D m)) →
  ∃ flagged fm,
    Forall (λ el, refine el = false) (Elements2D flagged) ∧
    length (Elements2D flagged) = length (Elements2D (netgen_mesh self)) ∧
    refineMarkedElements self mark =
      (Ok fm, if decide (comm_rank self = 0%nat) then Refine flagged else flagged) ∧
    length (Elements2D (fd_netgen_mesh fm)) =
      length (Elements2D (netgen_mesh self)).
Proof.
  intros Hdim Hfalse Hdist Hvalid Hplaceholder Hrefine.
  assert (Forall (λ v, truthy v = false) (reconcile self mark).2) as Hres.
  { unfold reconcile. destruct (sfBCInv self); simpl; [by apply Hdist|done]. }
  destruct (decide (comm_rank self = 0%nat)) as [Hrank|Hrank].
  - destruct (refine_rank0 self mark Hdim Hrank Hvalid) as (els & Hlen & Hflags & ->).
    assert (Forall (λ el, refine el = false) els) as Hels.
    { apply Forall_lookup. intros i el' Hel'.
      destruct (lookup_lt_is_Some_2 (Elements2D (netgen_mesh self)) i) as [el Hel].
      { rewrite <- Hlen. by eapply lookup_lt_Some. }
      destruct (Hflags i el Hel) as (v & Hv & Hi).
      rewrite Hel' in Hi. injection Hi as ->. simpl.
      apply np_get_Ok in Hv as (j & _ & Hj).
      by eapply (Forall_lookup_1 _ _ _ _ Hres). }
    exists (set_Elements2D els (netgen_mesh self)), 
           (fd_Mesh (Refine (set_Elements2D els (netgen_mesh self)))).
    split_and!; [done|done|done|].
    simpl. by rewrite Hrefine.
  - exists (netgen_mesh self), (fd_Mesh (ngm_Mesh 2)).
    rewrite (Hplaceholder Hrank). split_and!; [done|done| |done].
    unfold refineMarkedElements. rewrite decide_True by done.
    destruct (reconcile self mark) as [getIdx marked0].
    by rewrite decide_False.
Qed.

End RefinementProperties.

(** ** Properties of curveField *)

Section CurvingProperties.
Context `{PETSc, Netgen, Python, FIAT, !Firedrake}.

Lemma write_component_frame data datIdx c x data' :
  write_component data datIdx c x = Ok data' →
  length data' = length data ∧
  ∀ k, data' !! k = data !! k ∨ np_index (length data) datIdx = Some k.
Proof.
  unfold write_component.
  destruct (np_index (length data) datIdx) as [j|] eqn:Hj; [|done].
  destruct (data !! j) as [row|] eqn:Hrow; [|done].
  case_decide; [|done].
  intros [= <-]. split; [by rewrite length_insert|].
  intros k. destruct (decide (j = k)) as [->|Hne]; [by right|].
  left. by apply list_lookup_insert_ne.
Qed.

Lemma write_component_columns n data datIdx c x data' :
  write_component data datIdx c x = Ok data' →
  has_columns n data → has_columns n data'.
Proof.
  unfold write_component, has_columns.
  destruct (np_index (length data) datIdx) as [j|]; [|done].
  destruct (data !! j) as [row|] eqn:Hrow; [|done].
  case_decide; [|done].
  intros [= <-] Hcols. apply Forall_insert; [done|].
  rewrite length_insert. by eapply (Forall_lookup_1 _ _ _ _ Hcols).
Qed.

Lemma write_point_frame ncomp c data datIdx pt data' :
  write_point ncomp c data datIdx pt = Ok data' →
  length data' = length data ∧
  ∀ k, data' !! k = data !! k ∨ np_index (length data) datIdx = Some k.
Proof.
  revert c data. induction ncomp as [|n IH]; intros c data; simpl.
  - intros [= <-]. split; [done|]. intros k. by left.
  - intros Hw. apply bind_Ok in Hw as (x & _ & Hw).
    apply bind_Ok in Hw as (data1 & Hw1 & Hw).
    apply write_component_frame in Hw1 as [Hlen1 Hk1].
    apply IH in Hw as [Hlen Hk]. rewrite Hlen1 in Hlen, Hk.
    split; [done|]. intros k.
    destruct (Hk k) as [->|?]; [|by right]. apply Hk1.
Qed.

Lemma write_point_columns n ncomp c data datIdx pt data' :
  write_point ncomp c data datIdx pt = Ok data' →
  has_columns n data → has_columns n data'.
Proof.
  revert c data. induction ncomp as [|m IH]; intros c data; simpl.
  - by intros [= <-].
  - intros Hw. apply bind_Ok in Hw as (x & _ & Hw).
    apply bind_Ok in Hw as (data1 & Hw1 & Hw). intros Hcols.
    eapply IH; [done|]. by eapply write_component_columns.
Qed.

Lemma write_loop_frame ncomp block j slots data data' :
  write_loop ncomp block j slots data = Ok data' →
  length data' = length data ∧
  ∀ k, data' !! k = data !! k ∨
       ∃ datIdx, datIdx ∈ slots ∧ np_index (length data) datIdx = Some k.
Proof.
  revert j data. induction slots as [|datIdx slots IH]; intros j data; simpl.
  - intros [= <-]. split; [done|]. intros k. by left.
  - intros Hw. apply bind_Ok in Hw as (pt & _ & Hw).
    apply bind_Ok in Hw as (data1 & Hw1 & Hw).
    apply write_point_frame in Hw1 as [Hlen1 Hk1].
    apply IH in Hw as [Hlen Hk]. rewrite Hlen1 in Hlen, Hk.
    split; [done|]. intros k. destruct (Hk k) as [->|(d & Hd & Hidx)].
    + destruct (Hk1 k) as [->|Hidx]; [by left|].
      right. exists datIdx. split; [apply list_elem_of_here|done].
    + right. exists d. split; [by apply list_elem_of_further|done].
Qed.

Lemma write_loop_columns n ncomp block j slots data data' :
  write_loop ncomp block j slots data = Ok data' →
  has_columns n data → has_columns n data'.
Proof.
  revert j data. induction slots as [|datIdx slots IH]; intros j data; simpl.
  - by intros [= <-].
  - intros Hw. apply bind_Ok in Hw as (pt & _ & Hw).
    apply bind_Ok in Hw as (data1 & Hw1 & Hw). intros Hcols.
    eapply IH; [done|]. by eapply write_point_columns.
Qed.

Lemma curve_element_frame ncomp npts getIdx cellMap physPts curvedPhysPts i data data' :
  curve_element ncomp npts getIdx cellMap physPts curvedPhysPts i data = Ok data' →
  length data' = length data ∧
  ∀ k, data' !! k = data !! k ∨
       ∃ cell datIdx, np_get cellMap (getIdx (Z.of_nat i)) = Ok cell ∧
                      datIdx ∈ cell ∧ np_index (length data) datIdx = Some k.
Proof.
  unfold curve_element. intros Hc.
  apply bind_Ok in Hc as (phys & _ & Hc).
  apply bind_Ok in Hc as (cell & Hcell & Hc).
  apply bind_Ok in Hc as (rows & _ & Hc).
  apply bind_Ok in Hc as (p & _ & Hc).
  apply bind_Ok in Hc as (cur & _ & Hc).
  apply bind_Ok in Hc as (permuted & _ & Hc).
  apply bind_Ok in Hc as (block & _ & Hc).
  apply write_loop_frame in Hc as [Hlen Hk]. split; [done|].
  intros k. destruct (Hk k) as [?|(d & Hd & Hidx)]; [by left|].
  right. exists cell, d. split_and!; [done| |done].
  by eapply subseteq_take.
Qed.

Lemma curve_element_columns n ncomp npts getIdx cellMap physPts curvedPhysPts i
    data data' :
  curve_element ncomp npts getIdx cellMap physPts curvedPhysPts i data = Ok data' →
  has_columns n data → has_columns n data'.
Proof.
  unfold curve_element. intros Hc.
  apply bind_Ok in Hc as (phys & _ & Hc).
  apply bind_Ok in Hc as (cell & _ & Hc).
  apply bind_Ok in Hc as (rows & _ & Hc).
  apply bind_Ok in Hc as (p & _ & Hc).
  apply bind_Ok in Hc as (cur & _ & Hc).
  apply bind_Ok in Hc as (permuted & _ & Hc).
  apply bind_Ok in Hc as (block & _ & Hc).
  by eapply write_loop_columns.
Qed.

(** What a completed loop leaves of the data array: a row either is as
    before or is a node of a curved element met by the loop. *)
Lemma curve_loop_frame ncomp npts getIdx cellMap physPts curvedPhysPts i els data data' :
  curve_loop ncomp npts getIdx cellMap physPts curvedPhysPts i els data = Ok data' →
  length data' = length data ∧
  ∀ k, data' !! k = data !! k ∨
       ∃ j el cell datIdx,
         els !! j = Some el ∧ curved el = true ∧
         np_get cellMap (getIdx (Z.of_nat (i + j))) = Ok cell ∧
         datIdx ∈ cell ∧ np_index (length data) datIdx = Some k.
Proof.
  revert i data. induction els as [|el rest IH]; intros i data; simpl.
  - intros [= <-]. split; [done|]. intros k. by left.
  - intros Hl. apply bind_Ok in Hl as (data1 & Hel & Hl).
    apply IH in Hl as [Hlen Hk].
    assert (length data1 = length data ∧
            ∀ k, data1 !! k = data !! k ∨
                 curved el = true ∧
                 ∃ cell datIdx, np_get cellMap (getIdx (Z.of_nat i)) = Ok cell ∧
                   datIdx ∈ cell ∧ np_index (length data) datIdx = Some k)
      as [Hlen1 Hk1].
    { destruct (curved el).
      - apply curve_element_frame in Hel as [? Hk1]. split; [done|].
        intros k. destruct (Hk1 k); [by left|by right].
      - injection Hel as <-. split; [done|]. intros k. by left. }
    rewrite Hlen1 in Hlen, Hk. split; [done|]. intros k.
    destruct (Hk k) as [->|(j & el' & cell & d & Hj & Hcurved & Hcell & Hd & Hidx)].
    + destruct (Hk1 k) as [->|(Hcurved & cell & d & Hcell & Hd & Hidx)]; [by left|].
      right. exists 0%nat, el, cell, d. rewrite Nat.add_0_r. done.
    + right. exists (S j), el', cell, d.
      replace (i + S j)%nat with (S i + j)%nat by lia. done.
Qed.

Lemma Function_eta (f : Function) :
  {| dat_data := dat_data f;
     cell_node_map_values := cell_node_map_values f;
     ref_el := ref_el f |} = f.
Proof. by destruct f. Qed.

(** C1 (amended): in a geometric dimension other than 2 and 3
    [curveField] raises no unsupported-dimension error.  It returns the
    interpolated coordinate function as it is, or lets the [KeyError] of
    the reference cell's entity table escape, and the serial mesh is the
    one the call started with. *)
Theorem curve_other_dimension (self : MeshGeometry) (order : Z) :
  geometric_dimension self ≠ 2 →
  geometric_dimension self ≠ 3 →
  curveField self order =
    (match sub_entities (ref_el (interpolate_coordinates self order))
             (geometric_dimension self) with
     | Some _ => Ok (interpolate_coordinates self order)
     | None => Raise KeyError
     end,
     netgen_mesh self)
  ∧ ∀ msg, (curveField self order).1 ≠ Raise (NotImplementedError msg) ∧
           (curveField self order).1 ≠ Raise (ValueError msg).
Proof.
  intros Hnot2 Hnot3.
  assert (curveField self order =
    (match sub_entities (ref_el (interpolate_coordinates self order))
             (geometric_dimension self) with
     | Some _ => Ok (interpolate_coordinates self order)
     | None => Raise KeyError
     end,
     netgen_mesh self)) as ->.
  { unfold curveField.
    destruct (sub_entities _ _) as [ents|]; [|done].
    rewrite !decide_False by done. by rewrite Function_eta. }
  split; [done|]. intros msg.
  by destruct (sub_entities _ _).
Qed.

(** C6: when [curveField] returns, every row of the new function's data
    either holds its interpolated (straight-sided) value or is a node of
    an element flagged [curved]; hence, the cells of distinct elements
    sharing no node (a DG space), all nodes of an element whose [curved]
    flag is [False] hold their interpolated values. *)
Theorem curve_keeps_straight_elements (self : MeshGeometry) (order : Z)
    (f' : Function) (m' : ngmesh) :
  curveField self order = (Ok f', m') →
  let f := interpolate_coordinates self order in
  let getIdx := getOffset (cell_numbering self) in
  let els := serial_elements (geometric_dimension self) m' in
  (∀ k, dat_data f' !! k = dat_data f !! k ∨
        ∃ i el, els !! i = Some el ∧ curved el = true ∧ cell_node f getIdx i k)
  ∧ (disjoint_cells (length els) f getIdx →
     ∀ i el k, els !! i = Some el → curved el = false →
               cell_node f getIdx i k → dat_data f' !! k = dat_data f !! k).
Proof.
  intros Hcurve f getIdx els.
  assert (∀ k, dat_data f' !! k = dat_data f !! k ∨
        ∃ i el, els !! i = Some el ∧ curved el = true ∧ cell_node f getIdx i k)
    as Hframe.
  { revert Hcurve. unfold curveField. fold f. fold getIdx.
    destruct (sub_entities _ _) as [ents|]; [|done].
    subst els. unfold serial_elements.
    destruct (decide (geometric_dimension self = 2)) as [Hd2|Hd2].
    - unfold curve_block.
      destruct (curve_loop _ _ _ _ _ _ _ _ _) as [data2|e] eqn:Hloop; [|done].
      rewrite decide_False by lia.
      intros [= <- <-]. simpl.
      apply curve_loop_frame in Hloop as [_ Hk]. intros k.
      destruct (Hk k) as [?|(j & el & cell & d & Hj & Hc & Hcell & Hd & Hidx)];
        [by left|].
      right. exists j, el. split_and!; [done|done|]. by exists cell, d.
    - destruct (decide (geometric_dimension self = 3)) as [Hd3|Hd3].
      + unfold curve_block.
        destruct (curve_loop _ _ _ _ _ _ _ _ _) as [data3|e] eqn:Hloop; [|done].
        intros [= <- <-]. simpl.
        apply curve_loop_frame in Hloop as [_ Hk]. intros k.
        destruct (Hk k) as [?|(j & el & cell & d & Hj & Hc & Hcell & Hd & Hidx)];
          [by left|].
        right. exists j, el. split_and!; [done|done|]. by exists cell, d.
      + intros [= <- <-]. intros k. by left. }
  split; [done|].
  intros Hdisjoint i el k Hi Hstraight Hnode.
  destruct (Hframe k) as [?|(j & el' & Hj & Hcurved & Hnode')]; [done|].
  exfalso. apply (Hdisjoint i j k); [by eapply lookup_lt_Some..| |done|done].
  intros ->. congruence.
Qed.

End CurvingProperties.

(** ** Float and tuple equality, dictionaries *)

Lemma SFeqb_true (x y : scalar) :
  SFeqb x y = true ↔ x ≠ S754_nan ∧ SFcanon x = SFcanon y.
Proof.
  unfold SFeqb.
  destruct x as [s1|s1| |s1 m1 e1], y as [s2|s2| |s2 m2 e2];
    repeat match goal with s : bool |- _ => destruct s end; simpl;
    try (split; [done | intros [? ?]; done]).
  - destruct (Z.compare_spec e1 e2) as [->|?|?]; simpl;
      try (split; [done | intros [_ [= ? ?]]; lia]).
    change (PosDef.Pos.compare_cont Eq m1 m2) with (Pos.compare m1 m2).
    destruct (Pos.compare_spec m1 m2) as [->|?|?]; simpl;
      split; try done; intros [_ [= ?]]; lia.
  - destruct (Z.compare_spec e1 e2) as [->|?|?]; simpl;
      try (split; [done | intros [_ [= ? ?]]; lia]).
    change (PosDef.Pos.compare_cont Eq m1 m2) with (Pos.compare m1 m2).
    destruct (Pos.compare_spec m1 m2) as [->|?|?]; simpl;
      split; try done; intros [_ [= ?]]; lia.
Qed.

Lemma SFeqb_sym (x y : scalar) : SFeqb x y = true → SFeqb y x = true.
Proof.
  rewrite !SFeqb_true. intros [Hx Heq]. split; [|done].
  intros ->. destruct x; simpl in *; congruence.
Qed.

Lemma SFeqb_trans (x y z : scalar) :
  SFeqb x y = true → SFeqb y z = true → SFeqb x z = true.
Proof.
  rewrite !SFeqb_true. intros [Hx Hxy] [Hy Hyz]. split; congruence.
Qed.

Lemma tuple_eqb_sym (a b : list scalar) :
  tuple_eqb a b = true → tuple_eqb b a = true.
Proof.
  revert b. induction a as [|x a IH]; intros [|y b]; simpl; try done.
  rewrite !andb_true_iff. intros [Hxy Hab]. split; [by apply SFeqb_sym|by apply IH].
Qed.

Lemma tuple_eqb_trans (a b c : list scalar) :
  tuple_eqb a b = true → tuple_eqb b c = true → tuple_eqb a c = true.
Proof.
  revert b c. induction a as [|x a IH]; intros [|y b] [|z c]; simpl; try done.
  rewrite !andb_true_iff. intros [Hxy Hab] [Hyz Hbc].
  split; [by eapply SFeqb_trans|by eapply IH].
Qed.


Lemma dict_get_raises d q e :
  dict_get d q = Raise e → e = KeyError ∧ key_absent q d.
Proof.
  induction d as [|[k v] d IH]; simpl.
  - intros [= <-]. split; [done|]. apply Forall_nil_2.
  - destruct (tuple_eqb k q) eqn:Hk; [done|].
    intros [-> Hd]%IH. split; [done|]. by apply Forall_cons.
Qed.

Lemma dict_get_absent d q : key_absent q d → dict_get d q = Raise KeyError.
Proof.
  induction 1 as [|[k v] d Hk Hd IH]; simpl in *; [done|]. by rewrite Hk.
Qed.

Lemma dict_get_Ok d q v :
  dict_get d q = Ok v → ∃ k, (k, v) ∈ d ∧ tuple_eqb k q = true.
Proof.
  induction d as [|[k w] d IH]; simpl; [done|].
  destruct (tuple_eqb k q) eqn:Hk.
  - intros [= ->]. exists k. split; [apply list_elem_of_here|done].
  - intros (k' & Hin & Hk')%IH. exists k'. split; [by apply list_elem_of_further|done].
Qed.

Lemma dict_set_absent d k v q :
  key_absent q (dict_set d k v) ↔ key_absent q d ∧ tuple_eqb k q = false.
Proof.
  unfold key_absent. induction d as [|[k' v'] d IH]; simpl.
  - rewrite Forall_singleton. simpl. split; [|by intros [_ ?]].
    intros Hk. split; [apply Forall_nil_2|done].
  - destruct (tuple_eqb k' k) eqn:Hkk.
    + rewrite !Forall_cons. simpl. split; [|by intros [? _]].
      intros [Hk' Hd]. split; [done|].
      destruct (tuple_eqb k q) eqn:Hkq; [|done].
      by rewrite (tuple_eqb_trans _ _ _ Hkk Hkq) in Hk'.
    + rewrite !Forall_cons, IH. simpl. tauto.
Qed.

Lemma dict_set_entries d k v k' v' :
  (k', v') ∈ dict_set d k v →
  (k', v') ∈ d ∨ v' = v ∧ (k' = k ∨ tuple_eqb k' k = true).
Proof.
  induction d as [|[k0 v0] d IH]; simpl.
  - intros [= -> ->]%list_elem_of_singleton. right. split; [done|by left].
  - destruct (tuple_eqb k0 k) eqn:Hk0.
    + intros [[= -> ->]|Hin]%elem_of_cons.
      * right. split; [done|by right].
      * left. by apply list_elem_of_further.
    + intros [[= -> ->]|Hin]%elem_of_cons.
      * left. apply list_elem_of_here.
      * destruct (IH Hin) as [?|?]; [left; by apply list_elem_of_further|by right].
Qed.

Section Dictionaries.
Context `{Python}.

Lemma enumerate_fold_absent (l : list (nat * list scalar)) d q :
  key_absent q (foldl (λ d vk, dict_set d vk.2 vk.1) d l)
  ↔ key_absent q d ∧ Forall (λ vk, tuple_eqb vk.2 q = false) l.
Proof.
  revert d. induction l as [|[v k] l IH]; intros d; simpl.
  - split; [|by intros [? _]]. intros Hd. split; [done|apply Forall_nil_2].
  - rewrite IH, dict_set_absent, Forall_cons. simpl. tauto.
Qed.

Lemma enumerate_fold_entries (l : list (nat * list scalar)) d k' v' :
  (k', v') ∈ foldl (λ d vk, dict_set d vk.2 vk.1) d l →
  (k', v') ∈ d ∨ ∃ k, (v', k) ∈ l ∧ (k' = k ∨ tuple_eqb k' k = true).
Proof.
  revert d. induction l as [|[v k] l IH]; intros d; simpl; [by left|].
  intros [Hin|(k0 & Hin & Hk0)]%IH.
  - apply dict_set_entries in Hin as [?|[-> Hk]]; [by left|].
    right. exists k. split; [apply list_elem_of_here|done].
  - right. exists k0. split; [by apply list_elem_of_further|done].
Qed.

Lemma enumerate_dict_absent pts q :
  key_absent q (enumerate_dict pts) ↔ Forall (λ k, tuple_eqb k q = false) pts.
Proof.
  unfold enumerate_dict. rewrite enumerate_fold_absent.
  rewrite <- (Forall_fmap snd (λ k, tuple_eqb k q = false)).
  rewrite snd_zip by (rewrite length_seq; lia).
  split; [by intros [_ ?]|]. intros Hpts. split; [apply Forall_nil_2|done].
Qed.

Lemma enumerate_dict_get pts q v :
  dict_get (enumerate_dict pts) q = Ok v →
  ∃ k, pts !! v = Some k ∧ tuple_eqb k q = true.
Proof.
  intros (k' & Hin & Hk')%dict_get_Ok.
  apply enumerate_fold_entries in Hin as [Hin|(k & Hin & Hk)].
  { by apply not_elem_of_nil in Hin. }
  exists k. split.
  - apply list_elem_of_lookup in Hin as [i Hi].
    apply lookup_zip_with_Some in Hi as (a & b & [= <- <-] & Ha & Hb).
    apply lookup_seq in Ha as [-> _]. done.
  - destruct Hk as [->|Hk]; [done|].
    eapply tuple_eqb_trans; [by apply tuple_eqb_sym|done].
Qed.

Lemma mapM_raises {A B : Type} (f : A → result B) (l : list A) e :
  mapM f l = Raise e → ∃ x, x ∈ l ∧ f x = Raise e.
Proof.
  induction l as [|x l IH]; simpl; [done|].
  intros [Hx|(y & Hy & Hl)]%bind_Raise.
  - exists x. split; [apply list_elem_of_here|done].
  - apply bind_Raise in Hl as [Hl|(ys & _ & ?)]; [|done].
    destruct (IH Hl) as (x' & Hin & Hx'). exists x'.
    split; [by apply list_elem_of_further|done].
Qed.

Lemma mapM_Ok {A B : Type} (f : A → result B) (l : list A) ys :
  mapM f l = Ok ys ↔ Forall2 (λ x y, f x = Ok y) l ys.
Proof.
  revert ys. induction l as [|x l IH]; intros ys; simpl.
  - split; [intros [= <-]; constructor|by intros ->%Forall2_nil_inv_l].
  - split.
    + intros (y & Hy & Hl)%bind_Ok. apply bind_Ok in Hl as (ys' & Hl & [= <-]).
      constructor; [done|by apply IH].
    + intros (y & ys' & Hy & Hl & ->)%Forall2_cons_inv_l.
      rewrite Hy. simpl. apply IH in Hl. by rewrite Hl.
Qed.

(** A comprehension over a function that fails only with [e0] fails with
    [e0] as soon as it fails on some element. *)
Lemma mapM_fails {A B : Type} (f : A → result B) (l : list A) e0 x :
  (∀ y e, f y = Raise e → e = e0) →
  x ∈ l → f x = Raise e0 → mapM f l = Raise e0.
Proof.
  intros Honly Hin Hx. induction l as [|y l IH]; [by apply not_elem_of_nil in Hin|].
  simpl. destruct (f y) as [b|e] eqn:Hy; simpl.
  - apply elem_of_cons in Hin as [->|Hin]; [congruence|].
    by rewrite (IH Hin).
  - by rewrite (Honly _ _ Hy).
Qed.

Lemma match_points_raises phys dofs e :
  match_points phys dofs = Raise e ↔
  e = KeyError ∧ ∃ row, row ∈ dofs ∧ unmatched phys row.
Proof.
  unfold match_points, unmatched. split.
  - intros (row & Hin & [-> Habs]%dict_get_raises)%mapM_raises.
    split; [done|]. exists row. split; [done|].
    apply enumerate_dict_absent in Habs. intros pt Hpt.
    rewrite Forall_fmap in Habs. by eapply (proj1 (Forall_forall _ _) Habs).
  - intros [-> (row & Hin & Hrow)].
    eapply mapM_fails; [|done|].
    + intros y e Hy. by apply dict_get_raises in Hy as [-> _].
    + apply dict_get_absent, enumerate_dict_absent.
      rewrite Forall_fmap. apply Forall_forall. intros pt Hpt. by apply Hrow.
Qed.

Lemma match_points_Ok phys dofs p :
  match_points phys dofs = Ok p →
  length p = length dofs ∧
  Forall (λ v, (v < length phys)%nat) p ∧
  ∀ row, row ∈ dofs →
    ∃ pt, pt ∈ phys ∧ tuple_eqb (round_tuple pt) (round_tuple row) = true.
Proof.
  unfold match_points. intros Hp%mapM_Ok. split_and!.
  - symmetry. by eapply Forall2_length.
  - apply Forall_forall. intros v Hv.
    apply list_elem_of_lookup in Hv as [i Hi].
    destruct (Forall2_lookup_r _ _ _ _ _ Hp Hi) as (row & _ & Hrow).
    apply enumerate_dict_get in Hrow as (k & Hk & _).
    apply lookup_lt_Some in Hk. by rewrite length_fmap in Hk.
  - intros row Hrow.
    apply list_elem_of_lookup in Hrow as [i Hi].
    destruct (Forall2_lookup_l _ _ _ _ _ Hp Hi) as (v & _ & Hv).
    apply enumerate_dict_get in Hv as (k & Hk & Heq).
    apply list_lookup_fmap_Some in Hk as (pt & -> & Hpt).
    exists pt. split; [by eapply list_elem_of_lookup_2|done].
Qed.

End Dictionaries.

(** ** Shapes of the arrays *)

Lemma ndarray2_length n2 n3 g : length (ndarray2 n2 n3 g) = n2.
Proof. unfold ndarray2. by rewrite length_fmap, length_seq. Qed.

Lemma ndarray2_rows n2 n3 g :
  Forall (λ row, length row = n3) (ndarray2 n2 n3 g).
Proof.
  unfold ndarray2. apply Forall_fmap, Forall_forall. intros j _. simpl.
  by rewrite length_fmap, length_seq.
Qed.

Lemma ndarray3_length n1 n2 n3 f : length (ndarray3 n1 n2 n3 f) = n1.
Proof. unfold ndarray3. by rewrite length_fmap, length_seq. Qed.

Lemma ndarray3_lookup n1 n2 n3 f i :
  (i < n1)%nat → ndarray3 n1 n2 n3 f !! i = Some (ndarray2 n2 n3 (f i)).
Proof.
  intros Hi. unfold ndarray3. rewrite list_lookup_fmap, lookup_seq_lt by done.
  done.
Qed.

Lemma mapM_total {A B : Type} (f : A → result B) (l : list A) :
  Forall (λ x, ∃ y, f x = Ok y) l → ∃ ys, mapM f l = Ok ys.
Proof.
  induction 1 as [|x l [y Hy] _ [ys Hys]]; simpl; [eauto|].
  rewrite Hy, Hys. simpl. eauto.
Qed.

Lemma mapM_length {A B : Type} (f : A → result B) (l : list A) ys :
  mapM f l = Ok ys → length ys = length l.
Proof.
  revert ys. induction l as [|x l IH]; intros ys; simpl; [by intros [= <-]|].
  intros (y & _ & Hl)%bind_Ok. apply bind_Ok in Hl as (ys' & Hl & [= <-]).
  simpl. by rewrite (IH _ Hl).
Qed.

Lemma mapM_ext_in {A B : Type} (f g : A → result B) (l : list A) :
  Forall (λ x, f x = g x) l → mapM f l = mapM g l.
Proof.
  induction 1 as [|x l Hx _ IH]; simpl; [done|]. by rewrite Hx, IH.
Qed.

Lemma mapM_members {A B : Type} (f : A → result B) (l : list A) ys y :
  mapM f l = Ok ys → y ∈ ys → ∃ x, x ∈ l ∧ f x = Ok y.
Proof.
  revert ys. induction l as [|x l IH]; intros ys; simpl.
  - intros [= <-] Hy. by apply not_elem_of_nil in Hy.
  - intros (y0 & Hy0 & Hl)%bind_Ok. apply bind_Ok in Hl as (ys' & Hl & [= <-]).
    intros [->|Hy]%elem_of_cons.
    + exists x. split; [apply list_elem_of_here|done].
    + destruct (IH _ Hl Hy) as (x' & Hin & Hx'). exists x'.
      split; [by apply list_elem_of_further|done].
Qed.

(** ** When a curved element is processed normally *)

Section CurvingSuccess.
Context `{PETSc, Netgen, Python, FIAT, !Firedrake}.

Lemma write_component_total data datIdx c x :
  is_Some (np_index (length data) datIdx) →
  has_columns (S c) data →
  ∃ data', write_component data datIdx c x = Ok data'.
Proof.
  intros [k Hk] Hcols. unfold write_component. rewrite Hk.
  destruct (lookup_lt_is_Some_2 data k) as [row Hrow]; [by eapply np_index_lt|].
  rewrite Hrow. rewrite decide_True; [eauto|].
  apply (Forall_lookup_1 _ _ _ _ Hcols Hrow).
Qed.

Lemma write_point_total ncomp c data datIdx pt :
  is_Some (np_index (length data) datIdx) →
  has_columns (c + ncomp) data →
  (c + ncomp ≤ length pt)%nat →
  ∃ data', write_point ncomp c data datIdx pt = Ok data'.
Proof.
  revert c data. induction ncomp as [|n IH]; intros c data Hidx Hcols Hpt; simpl;
    [eauto|].
  destruct (lookup_lt_is_Some_2 pt c) as [x Hx]; [lia|].
  rewrite (np_get_nat _ _ _ Hx). simpl.
  destruct (write_component_total data datIdx c x Hidx) as [data1 Hw].
  { eapply Forall_impl; [exact Hcols|]. intros row Hrow. simpl in *. lia. }
  rewrite Hw. simpl.
  pose proof (write_component_columns _ _ _ _ _ _ Hw Hcols) as Hcols1.
  apply write_component_frame in Hw as [Hlen _].
  apply IH; [by rewrite Hlen| |lia].
  by replace (S c + n)%nat with (c + S n)%nat by lia.
Qed.

Lemma write_loop_total ncomp block j slots data :
  Forall (λ d, is_Some (np_index (length data) d)) slots →
  has_columns ncomp data →
  (j + length slots ≤ length block)%nat →
  Forall (λ pt, length pt = ncomp) block →
  ∃ data', write_loop ncomp block j slots data = Ok data'.
Proof.
  revert j data.
  induction slots as [|d slots IH]; intros j data Hslots Hcols Hj Hblock;
    simpl in *; [eauto|].
  apply Forall_cons in Hslots as [Hd Hslots].
  destruct (lookup_lt_is_Some_2 block j) as [pt Hpt]; [lia|].
  rewrite (np_get_nat _ _ _ Hpt). simpl.
  destruct (write_point_total ncomp 0 data d pt Hd) as [data1 Hw]; [done| |].
  { rewrite (Forall_lookup_1 _ _ _ _ Hblock Hpt). lia. }
  rewrite Hw. simpl.
  pose proof (write_point_columns _ _ _ _ _ _ _ Hw Hcols) as Hcols1.
  apply write_point_frame in Hw as [Hlen _].
  apply IH; [by rewrite Hlen|done|lia|done].
Qed.

Lemma mapM_np_get_valid (data : list (list scalar)) (cell : list Z) :
  Forall (λ d, is_Some (np_index (length data) d)) cell →
  ∃ rows, mapM (np_get data) cell = Ok rows.
Proof.
  intros Hcell. apply mapM_total. eapply Forall_impl; [done|].
  intros d Hd. by apply np_get_valid.
Qed.

(** The body of [if el.curved:] on well-shaped arrays: a [KeyError] when
    a row is unmatched, a normal end otherwise. *)
Lemma curve_element_cases ncomp npts getIdx cellMap physPts curvedPhysPts i data
    phys cur cell rows :
  np_get physPts (Z.of_nat i) = Ok phys →
  np_get curvedPhysPts (Z.of_nat i) = Ok cur →
  length cur = npts →
  Forall (λ pt, length pt = ncomp) cur →
  np_get cellMap (getIdx (Z.of_nat i)) = Ok cell →
  (npts ≤ length cell)%nat →
  mapM (np_get data) cell = Ok rows →
  has_columns ncomp data →
  (curve_element ncomp npts getIdx cellMap physPts curvedPhysPts i data
     = Raise KeyError ∧
   ∃ row, row ∈ take npts rows ∧ unmatched (take npts phys) row)
  ∨ ((∃ data', curve_element ncomp npts getIdx cellMap physPts curvedPhysPts i data
                 = Ok data') ∧
     ∀ row, row ∈ take npts rows → ¬ unmatched (take npts phys) row).
Proof.
  intros Hphys Hcur Hlen Hshape Hcell Hnodes Hrows Hcols.
  unfold curve_element. rewrite Hphys, Hcell. simpl. rewrite Hrows. simpl.
  destruct (match_points (take npts phys) (take npts rows)) as [p|e] eqn:Hp; simpl.
  - right. apply match_points_Ok in Hp as (Hplen & Hpbound & Hmatch).
    split.
    + rewrite Hcur. simpl.
      destruct (mapM_total (λ k, np_get cur (Z.of_nat k)) p) as [permuted Hperm].
      { eapply Forall_impl; [done|]. intros k Hk. simpl in Hk.
        apply np_get_valid. rewrite np_index_nonneg; [done|].
        rewrite length_take in Hk. lia. }
      rewrite Hperm. simpl.
      assert (length permuted = npts) as Hpermlen.
      { rewrite (mapM_length _ _ _ Hperm), Hplen, length_take.
        rewrite (mapM_length _ _ _ Hrows). lia. }
      unfold assign_block. rewrite decide_True by done. simpl.
      apply write_loop_total.
      * apply Forall_take.
        apply Forall_forall. intros d Hd.
        apply list_elem_of_lookup in Hd as [j Hj].
        apply mapM_Ok in Hrows.
        destruct (Forall2_lookup_l _ _ _ _ _ Hrows Hj) as (row & _ & Hrow).
        apply np_get_Ok in Hrow as (k & Hk & _). by exists k.
      * done.
      * rewrite length_take. lia.
      * apply Forall_forall. intros pt Hpt.
        destruct (mapM_members _ _ _ _ Hperm Hpt) as (k & _ & Hk).
        apply np_get_Ok in Hk as (k' & _ & Hk').
        by eapply (Forall_lookup_1 _ _ _ _ Hshape).
    + intros row Hrow Hun. destruct (Hmatch row Hrow) as (pt & Hpt & Heq).
      by rewrite (Hun pt Hpt) in Heq.
  - left. apply match_points_raises in Hp as [-> Hrow]. done.
Qed.

End CurvingSuccess.

(** ** The loop over the elements on well-shaped arrays *)

Section CurveLoop.
Context `{PETSc, Netgen, Python, FIAT, !Firedrake}.
Variables (ncomp npts nel : nat) (getIdx : Z → Z) (f : Function).
Variables (physPts curvedPhysPts : list (list (list scalar))).

Hypothesis physPts_shape : ∀ i, (i < nel)%nat → is_Some (physPts !! i).
Hypothesis curvedPhysPts_shape : ∀ i, (i < nel)%nat →
  ∃ cur, curvedPhysPts !! i = Some cur ∧ length cur = npts ∧
         Forall (λ pt, length pt = ncomp) cur.
Hypothesis cells_shape : well_shaped nel npts f getIdx.
Hypothesis cells_disjoint : disjoint_cells nel f getIdx.

(** Reading the nodes of a cell in two arrays that agree on them. *)
Lemma cell_rows_agree (data : list (list scalar)) (i : nat) (cell : list Z) :
  length data = length (dat_data f) →
  (∀ k, cell_node f getIdx i k → data !! k = dat_data f !! k) →
  np_get (cell_node_map_values f) (getIdx (Z.of_nat i)) = Ok cell →
  mapM (np_get data) cell = mapM (np_get (dat_data f)) cell.
Proof.
  intros Hlen Hagree Hcell. apply mapM_ext_in, Forall_forall. intros d Hd.
  unfold np_get. rewrite Hlen.
  destruct (np_index (length (dat_data f)) d) as [k|] eqn:Hk; [|done].
  simpl. rewrite Hagree; [done|]. by exists cell, d.
Qed.

Lemma curve_loop_cases (els : list Element) (i : nat) (data : list (list scalar)) :
  (i + length els ≤ nel)%nat →
  length data = length (dat_data f) →
  has_columns ncomp data →
  (∀ j k, (i ≤ j < nel)%nat → cell_node f getIdx j k →
          data !! k = dat_data f !! k) →
  (curve_loop ncomp npts getIdx (cell_node_map_values f) physPts curvedPhysPts
     i els data = Raise KeyError ∧
   ∃ j el, els !! j = Some el ∧ curved el = true ∧
     has_unmatched_row npts getIdx (cell_node_map_values f) physPts
       (dat_data f) (i + j))
  ∨ ((∃ data', curve_loop ncomp npts getIdx (cell_node_map_values f) physPts
                 curvedPhysPts i els data = Ok data') ∧
     ∀ j el, els !! j = Some el → curved el = true →
       ¬ has_unmatched_row npts getIdx (cell_node_map_values f) physPts
           (dat_data f) (i + j)).
Proof.
  revert i data. induction els as [|el rest IH]; intros i data Hi Hlen Hcols Hagree.
  { right. split; [by exists data|]. intros j el. by rewrite lookup_nil. }
  simpl in Hi. simpl.
  destruct (curved el) eqn:Hcurved.
  - destruct (physPts_shape i) as [phys Hphys]; [lia|].
    destruct (curvedPhysPts_shape i) as (cur & Hcur & Hcurlen & Hcurrows); [lia|].
    destruct (cells_shape i) as (cell & Hcell & Hnodes & Hvalid); [lia|].
    destruct (mapM_np_get_valid (dat_data f) cell Hvalid) as [rows Hrows].
    assert (mapM (np_get data) cell = Ok rows) as Hrows'.
    { rewrite <- Hrows. apply (cell_rows_agree data i); [done| |done].
      intros k Hk. apply (Hagree i); [lia|done]. }
    destruct (curve_element_cases ncomp npts getIdx (cell_node_map_values f)
                physPts curvedPhysPts i data phys cur cell rows)
      as [[Hbody Hrow]|[[data1 Hbody] Hmatched]];
      [by apply np_get_nat|by apply np_get_nat|done..| |].
    + left. rewrite Hbody. split; [done|].
      exists 0%nat, el. rewrite Nat.add_0_r. split_and!; [done..|].
      destruct Hrow as (row & Hrow & Hun).
      exists phys, cell, rows, row. split_and!; [by apply np_get_nat|done..].
    + rewrite Hbody. simpl.
      destruct (curve_element_frame _ _ _ _ _ _ _ _ _ Hbody) as [Hlen1 Hframe].
      destruct (IH (S i) data1) as [[Hloop Hbad]|[Hloop Hgood]].
      * lia.
      * congruence.
      * by eapply curve_element_columns.
      * intros j k Hj Hnode.
        destruct (Hframe k) as [->|(cell' & d & Hcell' & Hd & Hidx)];
          [apply (Hagree j); [lia|done]|].
        exfalso. apply (cells_disjoint i j k); [lia..| |done].
        exists cell', d. by rewrite <- Hlen.
      * left. split; [done|].
        destruct Hbad as (j & el' & Hj & Hc & Hun).
        exists (S j), el'. by replace (i + S j)%nat with (S i + j)%nat by lia.
      * right. split; [done|]. intros [|j] el' Hj Hc; simpl in Hj.
        -- rewrite Nat.add_0_r.
           intros (phys' & cell' & rows' & row & Hp' & Hc' & Hr' & Hrow & Hun).
           rewrite (np_get_nat _ _ _ Hphys) in Hp'. injection Hp' as <-.
           rewrite Hcell in Hc'. injection Hc' as <-.
           rewrite Hrows in Hr'. injection Hr' as <-.
           by apply (Hmatched row).
        -- replace (i + S j)%nat with (S i + j)%nat by lia. by eapply Hgood.
  - simpl. destruct (IH (S i) data) as [[Hloop Hbad]|[Hloop Hgood]].
    + lia.
    + done.
    + done.
    + intros j k Hj. apply Hagree. lia.
    + left. split; [done|].
      destruct Hbad as (j & el' & Hj & Hc & Hun).
      exists (S j), el'. by replace (i + S j)%nat with (S i + j)%nat by lia.
    + right. split; [done|]. intros [|j] el' Hj Hc; simpl in Hj.
      * congruence.
      * replace (i + S j)%nat with (S i + j)%nat by lia. by eapply Hgood.
Qed.

End CurveLoop.

(** ** The point-matching precondition of curveField *)

Section MatchingProperty.
Context `{PETSc, Netgen, Python, FIAT, !Firedrake}.

Lemma curve_block_cases (elements : ngmesh → list Element) (gdim : nat)
    (order : Z) (getIdx : Z → Z) (f : Function) (refPts : list (list scalar))
    (mesh : ngmesh) :
  let physPts := ndarray3 (length (elements mesh)) (length refPts) gdim
                   (CalcElementMapping mesh refPts) in
  let els := elements (Curve order mesh) in
  length els = length (elements mesh) →
  well_shaped (length els) (length refPts) f getIdx →
  has_columns gdim (dat_data f) →
  disjoint_cells (length els) f getIdx →
  (curve_block elements gdim order getIdx (cell_node_map_values f) refPts mesh
     (dat_data f) = (Raise KeyError, Curve order mesh) ∧
   ∃ i el, els !! i = Some el ∧ curved el = true ∧
     has_unmatched_row (length refPts) getIdx (cell_node_map_values f) physPts
       (dat_data f) i)
  ∨ ((∃ data', curve_block elements gdim order getIdx (cell_node_map_values f)
                 refPts mesh (dat_data f) = (Ok data', Curve order mesh)) ∧
     ∀ i el, els !! i = Some el → curved el = true →
       ¬ has_unmatched_row (length refPts) getIdx (cell_node_map_values f) physPts
           (dat_data f) i).
Proof.
  intros physPts els Hsame Hshape Hcols Hdisjoint. unfold curve_block.
  fold physPts. fold els.
  destruct (curve_loop_cases gdim (length refPts) (length els) getIdx f physPts
              (ndarray3 (length els) (length refPts) gdim
                 (CalcElementMapping (Curve order mesh) refPts)))
    with (els := els) (i := 0%nat) (data := dat_data f)
    as [[Hloop Hbad]|[[data' Hloop] Hgood]].
  - intros i Hi. subst physPts. rewrite ndarray3_lookup by lia. eauto.
  - intros i Hi. rewrite ndarray3_lookup by done.
    eexists. split; [done|]. split; [apply ndarray2_length|apply ndarray2_rows].
  - done.
  - done.
  - done.
  - simpl. lia.
  - done.
  - done.
  - left. rewrite Hloop. done.
  - right. rewrite Hloop. split; [by exists data'|done].
Qed.

(** C10 (amended): on well-shaped arrays of a DG space, [curveField] ends
    normally only if, for every element flagged [curved], each of the
    first [npts] rows of the element's nodes in the interpolated field
    ([npts] the number of reference points, the slice
    [[0:refPts.shape[0]]]) equals, after rounding to 8 places, one of the
    element's rounded straight-sided points; when one of these rows has no
    such match the [KeyError] of the dictionary lookup escapes from
    [curveField].  Rows of the cell after the first [npts] are not looked
    up. *)
Theorem curve_requires_matching (self : MeshGeometry) (order : Z)
    (ents : list (Z * Z)) :
  let f := interpolate_coordinates self order in
  let gdim := geometric_dimension self in
  let getIdx := getOffset (cell_numbering self) in
  let refPts := reference_points (ref_el f) gdim order ents in
  let els := serial_elements gdim (Curve order (netgen_mesh self)) in
  let physPts :=
    ndarray3 (length (serial_elements gdim (netgen_mesh self))) (length refPts)
      (Z.to_nat gdim) (CalcElementMapping (netgen_mesh self) refPts) in
  let mismatch i :=
    ∃ el, els !! i = Some el ∧ curved el = true ∧
      has_unmatched_row (length refPts) getIdx (cell_node_map_values f) physPts
        (dat_data f) i in
  gdim = 2 ∨ gdim = 3 →
  sub_entities (ref_el f) gdim = Some ents →
  length els = length (serial_elements gdim (netgen_mesh self)) →
  well_shaped (length els) (length refPts) f getIdx →
  has_columns (Z.to_nat gdim) (dat_data f) →
  disjoint_cells (length els) f getIdx →
  (curveField self order = (Raise KeyError, Curve order (netgen_mesh self)) ∧
   ∃ i, mismatch i)
  ∨ ((∃ f', curveField self order = (Ok f', Curve order (netgen_mesh self))) ∧
     ∀ i, ¬ mismatch i).
Proof.
  intros f gdim getIdx refPts els physPts mismatch Hdim Hents Hsame Hshape Hcols
    Hdisjoint.
  unfold curveField. fold f. fold gdim. fold getIdx. rewrite Hents. fold refPts.
  subst els physPts mismatch. unfold serial_elements in *.
  destruct Hdim as [Hdim|Hdim]; rewrite Hdim in *; simpl in *.
  - change (Z.to_nat 2) with 2%nat.
    destruct (curve_block_cases Elements2D 2 order getIdx f refPts (netgen_mesh self))
      as [[Hblock Hbad]|[[data' Hblock] Hgood]]; [done..| |];
      unfold curve_block in Hblock; injection Hblock as Hloop; rewrite Hloop.
    + left. split; [done|].
      destruct Hbad as (i & el & Hi & Hc & Hun). exists i, el. done.
    + right. split; [eauto|].
      intros i (el & Hi & Hc & Hun). by eapply Hgood.
  - change (Z.to_nat 3) with 3%nat.
    destruct (curve_block_cases Elements3D 3 order getIdx f refPts (netgen_mesh self))
      as [[Hblock Hbad]|[[data' Hblock] Hgood]]; [done..| |];
      unfold curve_block in Hblock; injection Hblock as Hloop; rewrite Hloop.
    + left. split; [done|].
      destruct Hbad as (i & el & Hi & Hc & Hun). exists i, el. done.
    + right. split; [eauto|].
      intros i (el & Hi & Hc & Hun). by eapply Hgood.
Qed.

End MatchingProperty.

(** ** Properties of FiredrakeMesh.__init__ *)

Section ConstructionProperties.
Context `{PETSc, Netgen, !Bridge}.

(** With every flag absent or falsy the mesh is wrapped as it is, and
    exactly the absent keys are warned about. *)
Lemma init_no_preprocessing (ngsolve_imported : bool) (mesh : pyobj)
    (netgen_flags : gmap string flag_value) (user_comm : Comm) :
  isinstance mesh [ngs_comp_Mesh ngsolve_imported; ngm_Mesh_class] = true →
  (∀ v, netgen_flags !! "purify_to_tets" = Some v → flag_truthy v = false) →
  (∀ v, netgen_flags !! "quad" = Some v → flag_truthy v = false) →
  (∀ v, netgen_flags !! "transform" = Some v → v = FlagNone) →
  FiredrakeMesh_init ngsolve_imported mesh netgen_flags user_comm =
    (Ok {| comm := user_comm; meshMap := MeshMapping mesh |},
     warning_if_absent netgen_flags "purify_to_tets"
       "No purify_to_tets flag found, mesh will not be purified to tets."
     ++ warning_if_absent netgen_flags "quad"
          "No quad flag found, mesh will not be quadrilateralised."
     ++ warning_if_absent netgen_flags "transform"
          "No PETSc transform found, mesh will not be transformed.",
     mesh).
Proof.
  intros Hinst Hpurify Hquad Htransform.
  unfold FiredrakeMesh_init, purify_step, quad_step, transform_step,
    warning_if_absent.
  rewrite Hinst.
  destruct (netgen_flags !! "purify_to_tets") as [v1|] eqn:Hv1;
    [rewrite (Hpurify v1) by done|];
    (destruct (netgen_flags !! "quad") as [v2|] eqn:Hv2;
      [rewrite (Hquad v2) by done|]);
    (destruct (netgen_flags !! "transform") as [v3|] eqn:Hv3;
      [rewrite (Htransform v3) by done|]); done.
Qed.

(** C2 (the code departs from it): a distributed plex given as [mesh] is
    rejected with the mesh-format error, whatever the flags and the
    import environment. *)
Theorem init_rejects_plex (ngsolve_imported : bool) (plex : DM)
    (netgen_flags : gmap string flag_value) (user_comm : Comm) :
  FiredrakeMesh_init ngsolve_imported (DMPlex plex) netgen_flags user_comm =
    (Raise (ValueError "Mesh format not recognised."), [], DMPlex plex).
Proof. by destruct ngsolve_imported. Qed.

(** C7: on a recognised mesh, the constructor called with the empty
    mapping succeeds, emits the three warnings (purify, quad, transform)
    and nothing else, and wraps the mesh unchanged; a flag that is present
    but falsy skips its step without a warning. *)
Theorem init_flag_absence (ngsolve_imported : bool) (mesh : pyobj)
    (user_comm : Comm) :
  isinstance mesh [ngs_comp_Mesh ngsolve_imported; ngm_Mesh_class] = true →
  FiredrakeMesh_init ngsolve_imported mesh ∅ user_comm =
    (Ok {| comm := user_comm; meshMap := MeshMapping mesh |},
     ["No purify_to_tets flag found, mesh will not be purified to tets.";
      "No quad flag found, mesh will not be quadrilateralised.";
      "No PETSc transform found, mesh will not be transformed."],
     mesh)
  ∧ FiredrakeMesh_init ngsolve_imported mesh
      (<["purify_to_tets" := FlagBool false]>
         (<["quad" := FlagBool false]> (<["transform" := FlagNone]> ∅)))
      user_comm =
    (Ok {| comm := user_comm; meshMap := MeshMapping mesh |}, [], mesh)
  ∧ ∀ netgen_flags,
      (∀ v, netgen_flags !! "purify_to_tets" = Some v → flag_truthy v = false) →
      (∀ v, netgen_flags !! "quad" = Some v → flag_truthy v = false) →
      (∀ v, netgen_flags !! "transform" = Some v → v = FlagNone) →
      FiredrakeMesh_init ngsolve_imported mesh netgen_flags user_comm =
        (Ok {| comm := user_comm; meshMap := MeshMapping mesh |},
         warning_if_absent netgen_flags "purify_to_tets"
           "No purify_to_tets flag found, mesh will not be purified to tets."
         ++ warning_if_absent netgen_flags "quad"
              "No quad flag found, mesh will not be quadrilateralised."
         ++ warning_if_absent netgen_flags "transform"
              "No PETSc transform found, mesh will not be transformed.",
         mesh).
Proof.
  intros Hinst. split_and!.
  - by rewrite init_no_preprocessing.
  - rewrite init_no_preprocessing; [done|done|..].
    + intros v. rewrite lookup_insert_eq. by intros [= <-].
    + intros v. rewrite lookup_insert_ne, lookup_insert_eq by done.
      by intros [= <-].
    + intros v. rewrite !lookup_insert_ne, lookup_insert_eq by done.
      by intros [= <-].
  - intros netgen_flags. by apply init_no_preprocessing.
Qed.

(** C9: after a failed import of [ngsolve] the name [ngs.comp.Mesh] is
    [NoneType]; [None] then passes the [isinstance] test, the constructor
    never raises the mesh-format error on it and, with no flag set, wraps
    it.  After a successful import the same call raises that error. *)
Theorem init_accepts_None_without_ngsolve (user_comm : Comm) :
  ngs_comp_Mesh false = NoneType
  ∧ isinstance PyNone [ngs_comp_Mesh false; ngm_Mesh_class] = true
  ∧ (∀ netgen_flags msg,
       (FiredrakeMesh_init false PyNone netgen_flags user_comm).1.1
       ≠ Raise (ValueError msg))
  ∧ FiredrakeMesh_init false PyNone ∅ user_comm =
      (Ok {| comm := user_comm; meshMap := MeshMapping PyNone |},
       ["No purify_to_tets flag found, mesh will not be purified to tets.";
        "No quad flag found, mesh will not be quadrilateralised.";
        "No PETSc transform found, mesh will not be transformed."],
       PyNone)
  ∧ (∀ netgen_flags,
       FiredrakeMesh_init true PyNone netgen_flags user_comm =
         (Raise (ValueError "Mesh format not recognised."), [], PyNone)).
Proof.
  split_and!; [done|done| |by rewrite init_no_preprocessing|done].
  intros netgen_flags msg.
  unfold FiredrakeMesh_init, purify_step, quad_step, transform_step. simpl.
  destruct (netgen_flags !! "purify_to_tets") as [v1|]; [destruct (flag_truthy v1)|];
    simpl; try done;
    (destruct (netgen_flags !! "quad") as [v2|]; [destruct (flag_truthy v2)|]);
    simpl;
    (destruct (netgen_flags !! "transform") as [[| |]|]); done.
Qed.

End ConstructionProperties.

(** ** The operations on the sample instance *)

Section SampleRuns.
Import Sample.

Example refine_serial :
  refineMarkedElements (serial 2) [one; zero] =
    (Ok (fd_Mesh (Refine (set_Elements2D
           [set_refine true (triangle 0 1 2); triangle 1 3 2] square))),
     Refine (set_Elements2D
               [set_refine true (triangle 0 1 2); triangle 1 3 2] square)).
Proof. reflexivity. Qed.

Example refine_parallel_rank0 :
  (refineMarkedElements (parallel 0) [one; zero]).1 =
    Ok (fd_Mesh (Refine (set_Elements2D
          [triangle 0 1 2; set_refine true (triangle 1 3 2)] square))).
Proof. reflexivity. Qed.

Example refine_short_marking :
  refineMarkedElements (serial 2) [one] =
    (Raise IndexError,
     set_Elements2D [set_refine true (triangle 0 1 2); triangle 1 3 2] square).
Proof. reflexivity. Qed.

Example refine_3d :
  refineMarkedElements (serial 3) [one; zero] =
    (Raise (NotImplementedError "No implementation for dimension other than 2."),
     square).
Proof. reflexivity. Qed.

Example curve_order1_unchanged :
  curveField (serial 2) 1 = (Ok (interpolate_coordinates (serial 2) 1), square).
Proof. reflexivity. Qed.

Example curve_order2_rows :
  dat_data curved_field !! 0%nat = Some [S754_finite true 6 0; S754_finite true 6 1]
  ∧ dat_data curved_field !! 6%nat
    = dat_data (interpolate_coordinates (serial 2) 2) !! 6%nat.
Proof. split; reflexivity. Qed.

Example curve_swapped_KeyError :
  curveField swapped 2 = (Raise KeyError, Curve 2 square).
Proof. reflexivity. Qed.

Example curve_dim4_KeyError :
  curveField (serial 4) 2 = (Raise KeyError, square).
Proof. reflexivity. Qed.

Example init_purify_on_None :
  FiredrakeMesh_init false PyNone {["purify_to_tets" := FlagBool true]} 0%nat =
    (Raise AttributeError, [], PyNone).
Proof. reflexivity. Qed.

End SampleRuns.

(** ** The theorems at the sample instance *)

Section SampleFacts.
Import Sample.

Lemma sample_Refine_unflagged (m : ngmesh) :
  Forall (λ el, refine el = false) (Elements2D m) →
  length (Elements2D (Refine m)) = length (Elements2D m).
Proof.
  simpl. induction 1 as [|el els Hel _ IH]; simpl; [done|].
  rewrite Hel. simpl. by rewrite IH.
Qed.

Lemma sample_distributeField_falsy (dm : DM) (sf : SF) (sec : PetscSection)
    (v : list scalar) :
  Forall (λ x, truthy x = false) v →
  Forall (λ x, truthy x = false) (distributeField dm sf sec v).2.
Proof.
  intros Hv. simpl. apply Forall_forall. intros x Hx.
  apply list_elem_of_omap in Hx as (k & _ & Hk).
  by eapply (Forall_lookup_1 _ _ _ _ Hv).
Qed.

Lemma sample_marks_in_range : marks_in_range (serial 2) [zero; zero].
Proof. intros [|[|i]] Hi; simpl in *; [by eexists..|lia]. Qed.

Lemma sample_well_shaped :
  well_shaped 2 6 (interpolate_coordinates (serial 2) 2) (λ x, x).
Proof.
  intros [|[|i]] Hi; [| |lia].
  - exists [0; 1; 2; 3; 4; 5]. split_and!; [done|simpl; lia|].
    repeat constructor; by eexists.
  - exists [6; 7; 8; 9; 10; 11]. split_and!; [done|simpl; lia|].
    repeat constructor; by eexists.
Qed.

Lemma sample_has_columns :
  has_columns 2 (dat_data (interpolate_coordinates (serial 2) 2)).
Proof. unfold has_columns. simpl. repeat constructor. Qed.

Lemma sample_cell_node (i k : nat) :
  cell_node (interpolate_coordinates (serial 2) 2) (λ x, x) i k →
  (i = 0 ∧ k < 6 ∨ i = 1 ∧ 6 ≤ k < 12)%nat.
Proof.
  intros (cell & d & Hcell & Hd & Hk).
  destruct i as [|[|i]].
  - left. injection Hcell as <-. split; [done|].
    repeat (apply elem_of_cons in Hd as [->|Hd]; [injection Hk as <-; lia|]).
    by apply not_elem_of_nil in Hd.
  - right. injection Hcell as <-. split; [done|].
    repeat (apply elem_of_cons in Hd as [->|Hd]; [injection Hk as <-; lia|]).
    by apply not_elem_of_nil in Hd.
  - exfalso. revert Hcell. unfold np_get.
    by rewrite np_index_beyond by (simpl; lia).
Qed.

Lemma sample_disjoint_cells :
  disjoint_cells 2 (interpolate_coordinates (serial 2) 2) (λ x, x).
Proof.
  intros i j k _ _ Hne Hi%sample_cell_node Hj%sample_cell_node. lia.
Qed.

(** C1 as stated fails: on the one-dimensional sample [curveField] returns
  the interpolated field and raises nothing. *)
Lemma curve_dimension_1_returns :
geometric_dimension (serial 1) = 1
∧ (curveField (serial 1) 2).1
  = Ok (interpolate_coordinates (serial 1) 2)
∧ ¬ ∃ e, (curveField (serial 1) 2).1 = Raise e.
Proof. split_and!; [reflexivity..|]. by intros [e He]. Qed.

Lemma curve_other_dimension_witness :
geometric_dimension (serial 1) ≠ 2
∧ geometric_dimension (serial 1) ≠ 3
∧ curveField (serial 1) 2
  = (Ok (interpolate_coordinates (serial 1) 2), square).
Proof.
split; [discriminate|]. split; [discriminate|].
refine (proj1 (curve_other_dimension (serial 1) 2 _ _)); discriminate.
Defined.

Lemma sample_marks_one_zero : marks_in_range (serial 2) [one; zero].
Proof. intros [|[|i]] Hi; simpl in *; [by eexists..|lia]. Qed.

Lemma refine_flags_then_refines_witness :
geometric_dimension (serial 2) = 2
∧ comm_rank (serial 2) = 0%nat
∧ marks_in_range (serial 2) [one; zero]
∧ ∃ flagged e0 e1,
    Elements2D flagged !! 0%nat = Some e0 ∧ refine e0 = true
    ∧ Elements2D flagged !! 1%nat = Some e1 ∧ refine e1 = false
    ∧ vertices e0 = [0; 1; 2]%nat ∧ vertices e1 = [1; 3; 2]%nat
    ∧ refineMarkedElements (serial 2) [one; zero]
      = (Ok (fd_Mesh (Refine flagged)), Refine flagged)
    ∧ refineMarkedElements (parallel 1) [one; zero]
      = (Ok (fd_Mesh (ngm_Mesh 2)), netgen_mesh (parallel 1)).
Proof.
split; [reflexivity|]. split; [reflexivity|].
split; [exact sample_marks_one_zero|].
pose proof (proj2 (refine_flags_then_refines (parallel 1) [one; zero] eq_refl))
  as Hother.
destruct (proj1 (refine_flags_then_refines (serial 2) [one; zero] eq_refl)
            eq_refl sample_marks_one_zero)
  as (flagged & _ & Hflags & _ & _ & Hres).
destruct (Hflags 0%nat (triangle 0 1 2) eq_refl) as (v0 & e0 & Hv0 & He0 & Hr0 & _ & Hx0).
destruct (Hflags 1%nat (triangle 1 3 2) eq_refl) as (v1 & e1 & Hv1 & He1 & Hr1 & _ & Hx1).
injection Hv0 as <-. injection Hv1 as <-.
exists flagged, e0, e1.
split; [exact He0|]. split; [exact Hr0|]. split; [exact He1|]. split; [exact Hr1|].
split; [exact Hx0|]. split; [exact Hx1|]. split; [exact Hres|].
apply Hother. discriminate.
Defined.

Lemma curve_keeps_straight_elements_witness :
curveField (serial 2) 2 = (Ok curved_field, Curve 2 square)
∧ ∀ k, dat_data curved_field !! k
       = dat_data (interpolate_coordinates (serial 2) 2) !! k
       ∨ ∃ i el,
           serial_elements 2 (Curve 2 square) !! i = Some el
           ∧ curved el = true
           ∧ cell_node (interpolate_coordinates (serial 2) 2)
               (λ x, x) i k.
Proof.
split; [reflexivity|].
refine (proj1 (curve_keeps_straight_elements (serial 2) 2
                 curved_field (Curve 2 square) _)).
reflexivity.
Defined.

Lemma init_flag_absence_witness :
isinstance (NetgenMesh square) [ngs_comp_Mesh true; ngm_Mesh_class] = true
∧ FiredrakeMesh_init true (NetgenMesh square) ∅ 0%nat
  = (Ok {| comm := 0%nat; meshMap := MeshMapping (NetgenMesh square) |},
     ["No purify_to_tets flag found, mesh will not be purified to tets.";
      "No quad flag found, mesh will not be quadrilateralised.";
      "No PETSc transform found, mesh will not be transformed."],
     NetgenMesh square).
Proof.
split; [reflexivity|].
refine (proj1 (init_flag_absence true (NetgenMesh square) 0%nat _)).
reflexivity.
Defined.

Lemma all_false_marking_witness :
geometric_dimension (serial 2) = 2
∧ Forall (λ v, truthy v = false) [zero; zero]
∧ marks_in_range (serial 2) [zero; zero]
∧ ∃ flagged fm,
    Forall (λ el, refine el = false) (Elements2D flagged)
    ∧ length (Elements2D flagged) = length (Elements2D square)
    ∧ refineMarkedElements (serial 2) [zero; zero]
      = (Ok fm, Refine flagged)
    ∧ length (Elements2D (fd_netgen_mesh fm)) = length (Elements2D square).
Proof.
split; [reflexivity|]. split; [by repeat constructor|].
split; [exact sample_marks_in_range|].
refine (all_false_marking (serial 2) [zero; zero] _ _ _ _ _ _).
- reflexivity.
- by repeat constructor.
- exact sample_distributeField_falsy.
- exact sample_marks_in_range.
- intros Hrank. by destruct Hrank.
- exact sample_Refine_unflagged.
Defined.

(** C10 as stated fails: the first element of the sample is flagged
    [curved], the seventh row of its cell equals none of its rounded
    straight-sided points, and [curveField] returns all the same. *)
Lemma curve_unmatched_row_beyond_sample_points :
∃ f' el phys,
  @curveField petsc netgen python fiat SampleTopology.with_interior_node
    (serial 2) 2 = (Ok f', Curve 2 square)
  ∧ Elements2D (Curve 2 square) !! 0%nat = Some el ∧ curved el = true
  ∧ cell_node_map_values
      (@interpolate_coordinates petsc fiat SampleTopology.with_interior_node
         (serial 2) 2) !! 0%nat = Some [0; 1; 2; 3; 4; 5; 6]
  ∧ dat_data
      (@interpolate_coordinates petsc fiat SampleTopology.with_interior_node
         (serial 2) 2) !! 6%nat = Some SampleTopology.interior_row
  ∧ np_get
      (ndarray3 2 6 2
         (CalcElementMapping square
            (reference_points () 2 2 triangle_entities))) 0 = Ok phys
  ∧ unmatched phys SampleTopology.interior_row.
Proof.
eexists _, _, _.
split; [vm_compute; reflexivity|]. split; [reflexivity|]. split; [reflexivity|].
split; [reflexivity|]. split; [reflexivity|]. split; [reflexivity|].
intros pt Hpt.
repeat (apply elem_of_cons in Hpt as [->|Hpt]; [reflexivity|]).
by apply not_elem_of_nil in Hpt.
Qed.

Lemma curve_requires_matching_witness :
sub_entities (ref_el (interpolate_coordinates (serial 2) 2)) 2
  = Some triangle_entities
∧ well_shaped 2 6 (interpolate_coordinates (serial 2) 2) (λ x, x)
∧ has_columns 2 (dat_data (interpolate_coordinates (serial 2) 2))
∧ disjoint_cells 2 (interpolate_coordinates (serial 2) 2) (λ x, x)
∧ ∃ f', curveField (serial 2) 2 = (Ok f', Curve 2 square).
Proof.
split; [reflexivity|]. split; [exact sample_well_shaped|].
split; [exact sample_has_columns|].
split; [exact sample_disjoint_cells|].
destruct (curve_requires_matching (serial 2) 2 triangle_entities)
  as [[Hraise _]|[Hreturn _]].
- by left.
- reflexivity.
- reflexivity.
- exact sample_well_shaped.
- exact sample_has_columns.
- exact sample_disjoint_cells.
- discriminate Hraise.
- exact Hreturn.
Defined.

End SampleFacts.

(** ** More on refineMarkedElements: errors, stale flags, partitioned runs *)

Section RefinementErrors.
Context `{PETSc, Netgen}.

Lemma np_get_beyond {A : Type} (a : list A) (k : Z) :
  np_index (length a) k = None → np_get a k = Raise IndexError.
Proof. intros Hk. unfold np_get. by rewrite Hk. Qed.

Lemma np_get_is_Ok {A : Type} (a : list A) (k : Z) (x : A) :
  np_get a k = Ok x → is_Some (np_index (length a) k).
Proof. intros (j & Hj & _)%np_get_Ok. by exists j. Qed.

(** The loop stops at the first index outside the array: the elements
    before it are flagged, the others are as they were. *)
Lemma mark_loop_stops mark getIdx (els : list Element) (i k : nat) :
  (k < length els)%nat →
  (∀ j, (j < k)%nat →
        is_Some (np_index (length mark) (getIdx (Z.of_nat (i + j))))) →
  np_index (length mark) (getIdx (Z.of_nat (i + k))) = None →
  ∃ pre, mark_loop mark getIdx i (take k els) = (None, pre) ∧
         mark_loop mark getIdx i els = (Some IndexError, pre ++ drop k els).
Proof.
  revert i k. induction els as [|el rest IH]; intros i k Hk Hvalid Hbad;
    simpl in Hk; [lia|].
  destruct k as [|k].
  - exists []. simpl. rewrite Nat.add_0_r in Hbad.
    by rewrite (np_get_beyond _ _ Hbad).
  - simpl.
    destruct (np_get_valid mark (getIdx (Z.of_nat i))) as [v Hv].
    { specialize (Hvalid 0%nat). rewrite Nat.add_0_r in Hvalid.
      apply Hvalid. lia. }
    rewrite Hv. destruct (IH (S i) k) as (pre & Hpre & Hall).
    + lia.
    + intros j Hj. replace (S i + j)%nat with (i + S j)%nat by lia.
      apply Hvalid. lia.
    + by replace (S i + k)%nat with (i + S k)%nat by lia.
    + rewrite Hpre, Hall. eexists. split; [done|]. done.
Qed.

Lemma mark_loop_error_iff mark getIdx (els : list Element) (i : nat) :
  (∃ els', mark_loop mark getIdx i els = (Some IndexError, els'))
  ↔ ∃ k, (k < length els)%nat ∧
         np_index (length mark) (getIdx (Z.of_nat (i + k))) = None.
Proof.
  revert i. induction els as [|el rest IH]; intros i; simpl.
  - split; [by intros [els' ?]|]. intros (k & Hk & _). simpl in Hk. lia.
  - destruct (np_get mark (getIdx (Z.of_nat i))) as [v|e] eqn:Hget.
    + destruct (mark_loop mark getIdx (S i) rest) as [r rest'] eqn:Hrest.
      split.
      * intros [els' [= -> <-]].
        destruct (proj1 (IH (S i))) as (k & Hk & Hbad); [by rewrite Hrest; eauto|].
        exists (S k). split; [lia|].
        by replace (i + S k)%nat with (S i + k)%nat by lia.
      * intros ([|k] & Hk & Hbad).
        -- rewrite Nat.add_0_r in Hbad. apply np_get_is_Ok in Hget as [j Hj].
           congruence.
        -- destruct (proj2 (IH (S i))) as [els' Hels'].
           { exists k. split; [lia|].
             by replace (S i + k)%nat with (i + S k)%nat by lia. }
           rewrite Hrest in Hels'. injection Hels' as -> <-. eauto.
    + split.
      * intros _. exists 0%nat. split; [lia|]. rewrite Nat.add_0_r.
        destruct (np_index (length mark) (getIdx (Z.of_nat i))) as [j|] eqn:Hj;
          [|done].
        destruct (np_get_valid mark (getIdx (Z.of_nat i))) as [v Hv]; [by eexists|].
        congruence.
      * intros _. apply np_get_raises in Hget as ->. eauto.
Qed.

(** Whatever the outcome, the loop changes nothing but [refine] flags. *)
Lemma mark_loop_geometry mark getIdx (els : list Element) (i : nat) :
  geometry_of <$> (mark_loop mark getIdx i els).2 = geometry_of <$> els.
Proof.
  revert i. induction els as [|el rest IH]; intros i; simpl; [done|].
  destruct (np_get mark (getIdx (Z.of_nat i))) as [v|e]; [|done].
  specialize (IH (S i)).
  destruct (mark_loop mark getIdx (S i) rest) as [r rest']. simpl in *.
  f_equal; [by destruct (truthy v)|exact IH].
Qed.

(** A loop that ends normally does not read the flags it overwrites. *)
Lemma mark_loop_stale mark getIdx (els els2 : list Element) (i : nat) els' :
  geometry_of <$> els2 = geometry_of <$> els →
  mark_loop mark getIdx i els = (None, els') →
  mark_loop mark getIdx i els2 = (None, els').
Proof.
  revert els2 i els'.
  induction els as [|el rest IH]; intros [|el2 rest2] i els' Hgeo; simpl in *;
    try done.
  injection Hgeo as Hc Hv Hrest.
  destruct (np_get mark (getIdx (Z.of_nat i))) as [v|e]; [|done].
  destruct (mark_loop mark getIdx (S i) rest) as [r rest'] eqn:Hloop.
  intros [= -> <-]. rewrite (IH rest2 (S i) rest' Hrest Hloop).
  f_equal. f_equal.
  destruct (truthy v); unfold set_refine; by rewrite Hc, Hv.
Qed.

(** With the identity as index function the flags are the truth values of
    the array, in order. *)
Lemma mark_loop_identity mark (els : list Element) (i : nat) :
  (i + length els ≤ length mark)%nat →
  mark_loop mark (λ x, x) i els
  = (None, zip_with (λ el v, set_refine (truthy v) el) els (drop i mark)).
Proof.
  revert i. induction els as [|el rest IH]; intros i Hi; simpl in *; [done|].
  destruct (lookup_lt_is_Some_2 mark i) as [v Hv]; [lia|].
  rewrite (np_get_nat _ _ _ Hv). rewrite IH by lia.
  rewrite (drop_S _ _ _ Hv). simpl. by destruct (truthy v).
Qed.

Lemma zip_flags (els : list Element) (vs : list scalar) :
  length vs = length els →
  refine <$> zip_with (λ el v, set_refine (truthy v) el) els vs = truthy <$> vs
  ∧ geometry_of <$> zip_with (λ el v, set_refine (truthy v) el) els vs
    = geometry_of <$> els.
Proof.
  revert els. induction vs as [|v vs IH]; intros [|el els] Hlen; try done.
  injection Hlen as Hlen. destruct (IH els Hlen) as [Hflags Hgeo].
  split.
  - change (truthy v :: (refine <$> zip_with (λ el v, set_refine (truthy v) el) els vs)
            = truthy v :: (truthy <$> vs)).
    by rewrite Hflags.
  - change (geometry_of el
              :: (geometry_of <$> zip_with (λ el v, set_refine (truthy v) el) els vs)
            = geometry_of el :: (geometry_of <$> els)).
    by rewrite Hgeo.
Qed.

(** X1: on rank 0 of a 2D mesh the call returns a mesh exactly when every
    resolved index is inside the marking array, and raises [IndexError]
    exactly when one is outside. *)
Theorem refine_index_error_iff (self : MeshGeometry) (mark : list scalar) :
  geometric_dimension self = 2 →
  comm_rank self = 0%nat →
  ((∃ fm, (refineMarkedElements self mark).1 = Ok fm) ↔ marks_in_range self mark)
  ∧ ((refineMarkedElements self mark).1 = Raise IndexError
     ↔ ∃ i, (i < length (Elements2D (netgen_mesh self)))%nat ∧
            np_index (length (reconcile self mark).2)
              ((reconcile self mark).1 (Z.of_nat i)) = None).
Proof.
  intros Hdim Hrank.
  assert ((refineMarkedElements self mark).1 = Raise IndexError
     ↔ ∃ i, (i < length (Elements2D (netgen_mesh self)))%nat ∧
            np_index (length (reconcile self mark).2)
              ((reconcile self mark).1 (Z.of_nat i)) = None) as Herr.
  { unfold refineMarkedElements. rewrite decide_True by done.
    destruct (reconcile self mark) as [getIdx marked0]; simpl.
    rewrite decide_True by done.
    rewrite <- (mark_loop_error_iff marked0 getIdx _ 0).
    destruct (mark_loop _ _ _ _) as [[e|] els] eqn:Hloop; simpl.
    - apply mark_loop_raises in Hloop as ->. split; eauto.
    - split; [done|]. by intros [els' ?]. }
  split; [|done]. split.
  - intros [fm Hfm] i Hi.
    destruct (np_index _ _) as [j|] eqn:Hj; [by eexists|].
    assert ((refineMarkedElements self mark).1 = Raise IndexError) as Hraise.
    { apply Herr. eauto. }
    congruence.
  - intros Hvalid.
    destruct (refine_rank0 self mark Hdim Hrank Hvalid) as (els & _ & _ & ->).
    eauto.
Qed.

(** X2: when the first resolved index outside the marking array belongs
    to element [k], the call raises [IndexError] and leaves a serial mesh
    that [Refine] has not touched, in which each of the [k] elements
    before has its [refine] flag set to the truth value of its mark, and
    element [k] and the later ones are as they were. *)
Theorem refine_stops_at_bad_index (self : MeshGeometry) (mark : list scalar)
    (k : nat) :
  geometric_dimension self = 2 →
  comm_rank self = 0%nat →
  (k < length (Elements2D (netgen_mesh self)))%nat →
  (∀ j, (j < k)%nat →
        is_Some (np_index (length (reconcile self mark).2)
                   ((reconcile self mark).1 (Z.of_nat j)))) →
  np_index (length (reconcile self mark).2)
    ((reconcile self mark).1 (Z.of_nat k)) = None →
  ∃ left,
    refineMarkedElements self mark = (Raise IndexError, left) ∧
    length (Elements2D left) = length (Elements2D (netgen_mesh self)) ∧
    (∀ j el, (j < k)%nat → Elements2D (netgen_mesh self) !! j = Some el →
       ∃ v el',
         np_get (reconcile self mark).2
                ((reconcile self mark).1 (Z.of_nat j)) = Ok v ∧
         Elements2D left !! j = Some el' ∧
         refine el' = truthy v ∧
         curved el' = curved el ∧ vertices el' = vertices el) ∧
    (∀ j, (k ≤ j)%nat →
       Elements2D left !! j = Elements2D (netgen_mesh self) !! j) ∧
    dim left = dim (netgen_mesh self) ∧
    Elements3D left = Elements3D (netgen_mesh self).
Proof.
  intros Hdim Hrank Hk Hvalid Hbad. unfold refineMarkedElements.
  rewrite decide_True by done.
  destruct (reconcile self mark) as [getIdx marked0]; simpl in *.
  rewrite decide_True by done.
  destruct (mark_loop_stops marked0 getIdx (Elements2D (netgen_mesh self)) 0 k)
    as (pre & Hpre & Hall); [done..|].
  rewrite Hall.
  destruct (mark_loop_flags _ _ _ _ _ Hpre) as [Hlen Hflags].
  assert (length pre = k) as Hprelen by (rewrite Hlen, length_take; lia).
  eexists. split; [done|]. simpl. split_and!; [| | |done|done].
  - rewrite length_app, length_drop. lia.
  - intros j el Hj Hel.
    destruct (Hflags j el) as (v & Hv & Hpj); [by rewrite lookup_take_lt|].
    exists v, (set_refine (truthy v) el). split_and!; [done| |done..].
    by apply lookup_app_l_Some.
  - intros j Hj. rewrite lookup_app_r by lia. rewrite lookup_drop.
    f_equal. lia.
Qed.

(** X3: a successful call on rank 0 does not depend on the [refine] flags
    the elements had before: every flag is overwritten. *)
Theorem refine_overwrites_flags (self : MeshGeometry) (mark : list scalar)
    (els2 : list Element) (fm : FdMesh) (m' : ngmesh) :
  comm_rank self = 0%nat →
  geometry_of <$> els2 = geometry_of <$> Elements2D (netgen_mesh self) →
  refineMarkedElements self mark = (Ok fm, m') →
  refineMarkedElements (with_Elements2D els2 self) mark = (Ok fm, m').
Proof.
  intros Hrank Hgeo. unfold refineMarkedElements. simpl.
  destruct (decide (geometric_dimension self = 2)) as [Hdim|Hdim]; [|done].
  assert (reconcile (with_Elements2D els2 self) mark = reconcile self mark) as ->
    by done.
  destruct (reconcile self mark) as [getIdx marked0].
  rewrite !decide_True by done.
  destruct (mark_loop marked0 getIdx 0 (Elements2D (netgen_mesh self)))
    as [[err|] els'] eqn:Hloop; [done|].
  rewrite (mark_loop_stale _ _ _ _ _ _ Hgeo Hloop).
  by destruct (netgen_mesh self).
Qed.

(** X4: in a partitioned run whose redistributed array has one entry per
    serial element, rank 0 of a 2D mesh always succeeds, and the flags
    handed to [Refine] are the truth values of that array, in order. *)
Theorem refine_partitioned_flags (self : MeshGeometry) (mark : list scalar)
    (sf : SF) :
  geometric_dimension self = 2 →
  comm_rank self = 0%nat →
  sfBCInv self = Some sf →
  let redistributed :=
    (distributeField (topology_dm self) sf (cell_numbering self) mark).2 in
  length redistributed = length (Elements2D (netgen_mesh self)) →
  ∃ flagged,
    refineMarkedElements self mark = (Ok (fd_Mesh (Refine flagged)), Refine flagged) ∧
    refine <$> Elements2D flagged = truthy <$> redistributed ∧
    geometry_of <$> Elements2D flagged
      = geometry_of <$> Elements2D (netgen_mesh self).
Proof.
  intros Hdim Hrank Hsf redistributed Hlen.
  unfold refineMarkedElements. rewrite decide_True by done.
  unfold reconcile. rewrite Hsf. fold redistributed. rewrite decide_True by done.
  rewrite mark_loop_identity by (simpl; lia). rewrite drop_0.
  eexists. split; [done|]. simpl.
  by apply zip_flags.
Qed.

(** X5: whatever the outcome, the serial mesh a call leaves (before
    [Refine], when it gets that far) differs from the one it found in
    [refine] flags only: dimension, 3D elements, and the [curved] flag and
    vertices of every 2D element are kept. *)
Theorem refine_changes_flags_only (self : MeshGeometry) (mark : list scalar) :
  ∃ flagged,
    ((refineMarkedElements self mark).2 = flagged
     ∨ (refineMarkedElements self mark).2 = Refine flagged) ∧
    dim flagged = dim (netgen_mesh self) ∧
    Elements3D flagged = Elements3D (netgen_mesh self) ∧
    geometry_of <$> Elements2D flagged
      = geometry_of <$> Elements2D (netgen_mesh self).
Proof.
  unfold refineMarkedElements.
  destruct (decide (geometric_dimension self = 2)) as [Hdim|Hdim];
    [|by exists (netgen_mesh self); eauto].
  destruct (reconcile self mark) as [getIdx marked0].
  destruct (decide (comm_rank self = 0%nat)) as [Hrank|Hrank];
    [|by exists (netgen_mesh self); eauto].
  pose proof (mark_loop_geometry marked0 getIdx (Elements2D (netgen_mesh self)) 0)
    as Hgeo.
  destruct (mark_loop _ _ _ _) as [[err|] els]; simpl in *;
    exists (set_Elements2D els (netgen_mesh self)); split_and!; eauto.
Qed.

Lemma np_index_mod (n : nat) (k : Z) :
  - Z.of_nat n ≤ k < Z.of_nat n →
  np_index n k = Some (Z.to_nat (k `mod` Z.of_nat n)).
Proof.
  intros Hk. unfold np_index. destruct (decide (0 ≤ k < Z.of_nat n)) as [Hpos|Hneg].
  - by rewrite Z.mod_small.
  - rewrite decide_True by lia. f_equal. f_equal.
    rewrite <- (Z_mod_plus_full k 1 (Z.of_nat n)).
    rewrite Z.mod_small by lia. lia.
Qed.


End RefinementErrors.

(** ** More on curveField: what it leaves alone, shapes, index errors *)

Section CurvingShape.
Context `{PETSc, Netgen, Python, FIAT, !Firedrake}.

Lemma write_component_shape data datIdx c x data' :
  write_component data datIdx c x = Ok data' →
  length <$> data' = length <$> data.
Proof.
  unfold write_component.
  destruct (np_index (length data) datIdx) as [j|]; [|done].
  destruct (data !! j) as [row|] eqn:Hrow; [|done].
  case_decide; [|done]. intros [= <-].
  rewrite list_fmap_insert. apply list_insert_id.
  rewrite list_lookup_fmap, Hrow. simpl. by rewrite length_insert.
Qed.

Lemma write_point_shape ncomp c data datIdx pt data' :
  write_point ncomp c data datIdx pt = Ok data' →
  length <$> data' = length <$> data.
Proof.
  revert c data. induction ncomp as [|n IH]; intros c data; simpl.
  - by intros [= <-].
  - intros Hw. apply bind_Ok in Hw as (x & _ & Hw).
    apply bind_Ok in Hw as (data1 & Hw1 & Hw).
    rewrite (IH _ _ Hw). by eapply write_component_shape.
Qed.

Lemma write_loop_shape ncomp block j slots data data' :
  write_loop ncomp block j slots data = Ok data' →
  length <$> data' = length <$> data.
Proof.
  revert j data. induction slots as [|d slots IH]; intros j data; simpl.
  - by intros [= <-].
  - intros Hw. apply bind_Ok in Hw as (pt & _ & Hw).
    apply bind_Ok in Hw as (data1 & Hw1 & Hw).
    rewrite (IH _ _ Hw). by eapply write_point_shape.
Qed.

Lemma curve_element_shape ncomp npts getIdx cellMap physPts curvedPhysPts i
    data data' :
  curve_element ncomp npts getIdx cellMap physPts curvedPhysPts i data = Ok data' →
  length <$> data' = length <$> data.
Proof.
  unfold curve_element. intros Hc.
  apply bind_Ok in Hc as (phys & _ & Hc).
  apply bind_Ok in Hc as (cell & _ & Hc).
  apply bind_Ok in Hc as (rows & _ & Hc).
  apply bind_Ok in Hc as (p & _ & Hc).
  apply bind_Ok in Hc as (cur & _ & Hc).
  apply bind_Ok in Hc as (permuted & _ & Hc).
  apply bind_Ok in Hc as (block & _ & Hc).
  by eapply write_loop_shape.
Qed.

Lemma curve_loop_shape ncomp npts getIdx cellMap physPts curvedPhysPts i els
    data data' :
  curve_loop ncomp npts getIdx cellMap physPts curvedPhysPts i els data = Ok data' →
  length <$> data' = length <$> data.
Proof.
  revert i data. induction els as [|el rest IH]; intros i data; simpl.
  - by intros [= <-].
  - intros Hl. apply bind_Ok in Hl as (data1 & Hel & Hl).
    rewrite (IH _ _ Hl). destruct (curved el).
    + by eapply curve_element_shape.
    + by injection Hel as <-.
Qed.

(** A stretch of elements none of which is curved is passed over. *)
Lemma curve_loop_skip ncomp npts getIdx cellMap physPts curvedPhysPts i
    (pre rest : list Element) data :
  Forall (λ el, curved el = false) pre →
  curve_loop ncomp npts getIdx cellMap physPts curvedPhysPts i (pre ++ rest) data
  = curve_loop ncomp npts getIdx cellMap physPts curvedPhysPts
      (i + length pre) rest data.
Proof.
  intros Hpre. revert i.
  induction Hpre as [|el pre Hel _ IH]; intros i; simpl.
  - by rewrite Nat.add_0_r.
  - rewrite Hel. simpl. rewrite IH. f_equal. lia.
Qed.

Lemma curveField_unfold (self : MeshGeometry) (order : Z) (ents : list (Z * Z)) :
  geometric_dimension self = 2 ∨ geometric_dimension self = 3 →
  sub_entities (ref_el (interpolate_coordinates self order))
    (geometric_dimension self) = Some ents →
  curveField self order =
    (match curve_loop_of self order ents with
     | Ok data =>
         Ok {| dat_data := data;
               cell_node_map_values :=
                 cell_node_map_values (interpolate_coordinates self order);
               ref_el := ref_el (interpolate_coordinates self order) |}
     | Raise e => Raise e
     end,
     Curve order (netgen_mesh self)).
Proof.
  intros Hdim Hents. unfold curveField, curve_loop_of. rewrite Hents.
  unfold serial_elements, curve_block.
  destruct Hdim as [Hdim|Hdim]; rewrite Hdim; simpl;
    by destruct (curve_loop _ _ _ _ _ _ _ _ _).
Qed.

(** X6: when, after [Curve], no element is flagged [curved], [curveField]
    returns the interpolated function as it is (in dimension 2 or 3 after
    curving the serial mesh), whatever the cell map and the arrays hold. *)
Theorem curve_without_curved_elements (self : MeshGeometry) (order : Z)
    (ents : list (Z * Z)) :
  sub_entities (ref_el (interpolate_coordinates self order))
    (geometric_dimension self) = Some ents →
  Forall (λ el, curved el = false)
    (serial_elements (geometric_dimension self) (Curve order (netgen_mesh self))) →
  curveField self order =
    (Ok (interpolate_coordinates self order),
     if decide (geometric_dimension self = 2 ∨ geometric_dimension self = 3)
     then Curve order (netgen_mesh self) else netgen_mesh self).
Proof.
  intros Hents Hstraight. case_decide as Hdim.
  - rewrite (curveField_unfold self order ents Hdim Hents). unfold curve_loop_of.
    rewrite <- (app_nil_r (serial_elements _ (Curve order (netgen_mesh self)))).
    rewrite curve_loop_skip by done. simpl. by rewrite Function_eta.
  - unfold curveField. rewrite Hents.
    rewrite !decide_False by tauto. by rewrite Function_eta.
Qed.

(** X7: in dimension 2 or 3 the serial mesh is curved by the call also
    when the call raises in the loop; in any other dimension, or when the
    entity table has no entry for the dimension, it is left as it was. *)
Theorem curve_mesh_state (self : MeshGeometry) (order : Z) :
  (curveField self order).2 =
    match sub_entities (ref_el (interpolate_coordinates self order))
            (geometric_dimension self) with
    | Some _ =>
        if decide (geometric_dimension self = 2 ∨ geometric_dimension self = 3)
        then Curve order (netgen_mesh self) else netgen_mesh self
    | None => netgen_mesh self
    end.
Proof.
  destruct (sub_entities _ _) as [ents|] eqn:Hents.
  - case_decide as Hdim.
    + by rewrite (curveField_unfold self order ents Hdim Hents).
    + unfold curveField. rewrite Hents. by rewrite !decide_False by tauto.
  - unfold curveField. by rewrite Hents.
Qed.

(** X8: the function [curveField] returns has the cell-node map and the
    reference cell of the interpolated function, and a data array of the
    same shape: as many rows, each as long as before. *)
Theorem curve_keeps_shape (self : MeshGeometry) (order : Z) (f' : Function)
    (m' : ngmesh) :
  curveField self order = (Ok f', m') →
  length <$> dat_data f' = length <$> dat_data (interpolate_coordinates self order)
  ∧ cell_node_map_values f'
    = cell_node_map_values (interpolate_coordinates self order)
  ∧ ref_el f' = ref_el (interpolate_coordinates self order).
Proof.
  destruct (sub_entities (ref_el (interpolate_coordinates self order))
              (geometric_dimension self)) as [ents|] eqn:Hents.
  - destruct (decide (geometric_dimension self = 2
                      ∨ geometric_dimension self = 3)) as [Hdim|Hdim].
    + rewrite (curveField_unfold self order ents Hdim Hents).
      destruct (curve_loop_of self order ents) as [data|e] eqn:Hloop; [|done].
      intros [= <- <-]. simpl. split; [|done].
      by eapply curve_loop_shape.
    + unfold curveField. rewrite Hents. rewrite !decide_False by tauto.
      by intros [= <- <-].
  - unfold curveField. by rewrite Hents.
Qed.

(** X9: when the first element flagged [curved] is resolved to a cell
    number outside the cell-node map (or has no block of straight-sided
    points), [curveField] raises [IndexError], the serial mesh being curved
    already. *)
Theorem curve_cell_out_of_range (self : MeshGeometry) (order : Z)
    (ents : list (Z * Z)) (pre post : list Element) (el : Element) :
  geometric_dimension self = 2 ∨ geometric_dimension self = 3 →
  sub_entities (ref_el (interpolate_coordinates self order))
    (geometric_dimension self) = Some ents →
  serial_elements (geometric_dimension self) (Curve order (netgen_mesh self))
    = pre ++ el :: post →
  Forall (λ el, curved el = false) pre →
  curved el = true →
  np_index (length (cell_node_map_values (interpolate_coordinates self order)))
    (getOffset (cell_numbering self) (Z.of_nat (length pre))) = None →
  curveField self order = (Raise IndexError, Curve order (netgen_mesh self)).
Proof.
  intros Hdim Hents Hels Hpre Hcurved Hbad.
  rewrite (curveField_unfold self order ents Hdim Hents). unfold curve_loop_of.
  rewrite Hels, curve_loop_skip by done. simpl. rewrite Hcurved.
  unfold curve_element.
  destruct (np_get (ndarray3 _ _ _ _) (Z.of_nat (length pre))) as [phys|e] eqn:Hphys;
    simpl.
  - by rewrite (np_get_beyond _ _ Hbad).
  - by apply np_get_raises in Hphys as ->.
Qed.

End CurvingShape.

(** ** What curveField writes *)

Section CurvingValues.
Context `{PETSc, Netgen, Python, FIAT, !Firedrake}.

Lemma np_get_nat_inv {A : Type} (a : list A) (j : nat) (x : A) :
  np_get a (Z.of_nat j) = Ok x → a !! j = Some x.
Proof.
  intros (j' & Hj' & Hx)%np_get_Ok. unfold np_index in Hj'.
  repeat case_decide; simplify_eq; [|lia]. by rewrite Nat2Z.id in Hx.
Qed.

Lemma ndarray2_lookup_inv n2 n3 g q row :
  ndarray2 n2 n3 g !! q = Some row →
  (q < n2)%nat ∧ row = (λ c, g q c) <$> seq 0 n3.
Proof.
  unfold ndarray2. intros (j & -> & Hj)%list_lookup_fmap_Some.
  apply lookup_seq in Hj as [-> Hq]. done.
Qed.

Lemma ndarray3_lookup_inv n1 n2 n3 g i block :
  ndarray3 n1 n2 n3 g !! i = Some block →
  (i < n1)%nat ∧ block = ndarray2 n2 n3 (g i).
Proof.
  unfold ndarray3. intros (j & -> & Hj)%list_lookup_fmap_Some.
  apply lookup_seq in Hj as [-> Hq]. done.
Qed.

Lemma write_component_value data d c x data' k :
  write_component data d c x = Ok data' →
  np_index (length data) d = Some k →
  ∃ row, data !! k = Some row ∧ (c < length row)%nat ∧
         data' !! k = Some (<[c:=x]> row).
Proof.
  unfold write_component. intros Hw Hk. rewrite Hk in Hw.
  destruct (data !! k) as [row|] eqn:Hrow; [|done].
  case_decide; [|done]. injection Hw as <-. exists row. split_and!; [done..|].
  apply list_lookup_insert_eq. by eapply lookup_lt_Some.
Qed.

Lemma write_point_value ncomp c0 data d pt data' k :
  write_point ncomp c0 data d pt = Ok data' →
  np_index (length data) d = Some k →
  ∃ row row', data !! k = Some row ∧ data' !! k = Some row' ∧
    (∀ c, (c0 ≤ c < c0 + ncomp)%nat → row' !! c = pt !! c) ∧
    (∀ c, (c < c0)%nat → row' !! c = row !! c).
Proof.
  revert c0 data. induction ncomp as [|n IH]; intros c0 data; simpl.
  - intros [= <-] Hk.
    destruct (lookup_lt_is_Some_2 data k) as [row Hrow]; [by eapply np_index_lt|].
    exists row, row. split_and!; [done..| |done]. intros c Hc. lia.
  - intros Hw Hk. apply bind_Ok in Hw as (x & Hx & Hw).
    apply bind_Ok in Hw as (data1 & Hw1 & Hw).
    apply np_get_nat_inv in Hx.
    destruct (write_component_value _ _ _ _ _ _ Hw1 Hk) as (row & Hrow & Hc0 & Hrow1).
    apply write_component_frame in Hw1 as [Hlen1 _].
    destruct (IH (S c0) data1 Hw) as (row1 & row' & Hrow1' & Hrow' & Hnew & Hold).
    { by rewrite Hlen1. }
    rewrite Hrow1 in Hrow1'. injection Hrow1' as <-.
    exists row, row'. split_and!; [done..| |].
    + intros c Hc. destruct (decide (c = c0)) as [->|Hne].
      * rewrite Hold by lia. rewrite list_lookup_insert_eq by done. done.
      * apply Hnew. lia.
    + intros c Hc. rewrite Hold by lia. apply list_lookup_insert_ne. lia.
Qed.

Lemma write_loop_value ncomp block j slots data data' :
  write_loop ncomp block j slots data = Ok data' →
  NoDup (np_index (length data) <$> slots) →
  ∀ t d k, slots !! t = Some d → np_index (length data) d = Some k →
    ∃ pt row', block !! (j + t)%nat = Some pt ∧ data' !! k = Some row' ∧
      ∀ c, (c < ncomp)%nat → row' !! c = pt !! c.
Proof.
  revert j data. induction slots as [|d0 slots IH]; intros j data; simpl.
  { intros _ _ t d k. by rewrite lookup_nil. }
  intros Hw Hnodup. apply bind_Ok in Hw as (pt0 & Hpt0 & Hw).
  apply bind_Ok in Hw as (data1 & Hw1 & Hw).
  apply np_get_nat_inv in Hpt0.
  apply NoDup_cons in Hnodup as [Hfresh Hnodup].
  destruct (write_point_frame _ _ _ _ _ _ Hw1) as [Hlen1 _].
  intros [|t] d k Hd Hk; simpl in Hd.
  - injection Hd as ->. rewrite Nat.add_0_r.
    destruct (write_point_value _ _ _ _ _ _ _ Hw1 Hk)
      as (row & row1 & _ & Hrow1 & Hnew & _).
    destruct (write_loop_frame _ _ _ _ _ _ Hw) as [_ Hframe].
    destruct (Hframe k) as [Hsame|(d' & Hd' & Hk')].
    + exists pt0, row1. split_and!; [done|congruence|].
      intros c Hc. apply Hnew. lia.
    + exfalso. apply Hfresh. rewrite Hk, <- Hk', Hlen1.
      by apply list_elem_of_fmap_2.
  - replace (j + S t)%nat with (S j + t)%nat by lia.
    eapply (IH (S j) data1 Hw); [by rewrite Hlen1|done|by rewrite Hlen1].
Qed.

Lemma assign_block_lookup n (src block : list (list scalar)) t :
  assign_block n src = Ok block →
  (t < length src)%nat → (t < n)%nat → block !! t = src !! t.
Proof.
  unfold assign_block. case_decide; [by intros [= <-]|].
  destruct src as [|row [|row' src]]; try done.
  intros [= <-] Ht Hn. simpl in Ht. replace t with 0%nat by lia.
  by rewrite lookup_replicate_2 by lia.
Qed.

(** What the body of [if el.curved:] leaves in the row of node [t] of the
    cell: the curved image of a straight-sided point that equals, after
    rounding, the row found there. *)
Lemma curve_element_value ncomp npts getIdx cellMap physPts curvedPhysPts i
    data data' cell :
  curve_element ncomp npts getIdx cellMap physPts curvedPhysPts i data = Ok data' →
  np_get cellMap (getIdx (Z.of_nat i)) = Ok cell →
  NoDup (np_index (length data) <$> take npts cell) →
  ∀ t d k, take npts cell !! t = Some d → np_index (length data) d = Some k →
    ∃ phys cur q pt cpt row row',
      np_get physPts (Z.of_nat i) = Ok phys ∧
      np_get curvedPhysPts (Z.of_nat i) = Ok cur ∧
      take npts phys !! q = Some pt ∧ cur !! q = Some cpt ∧
      data !! k = Some row ∧
      tuple_eqb (round_tuple pt) (round_tuple row) = true ∧
      data' !! k = Some row' ∧
      ∀ c, (c < ncomp)%nat → row' !! c = cpt !! c.
Proof.
  unfold curve_element. intros Hc Hcell Hnodup t d k Hd Hk.
  apply bind_Ok in Hc as (phys & Hphys & Hc).
  rewrite Hcell in Hc. simpl in Hc.
  apply bind_Ok in Hc as (rows & Hrows & Hc).
  apply bind_Ok in Hc as (p & Hp & Hc).
  apply bind_Ok in Hc as (cur & Hcur & Hc).
  apply bind_Ok in Hc as (permuted & Hperm & Hc).
  apply bind_Ok in Hc as (block & Hblock & Hc).
  apply lookup_take_Some in Hd as [Hd Ht].
  apply mapM_Ok in Hrows.
  destruct (Forall2_lookup_l _ _ _ _ _ Hrows Hd) as (row & Hrow & Hget).
  apply np_get_Ok in Hget as (k' & Hk' & Hdata).
  rewrite Hk in Hk'. injection Hk' as <-.
  unfold match_points in Hp. apply mapM_Ok in Hp.
  assert (take npts rows !! t = Some row) as Hrowt by by rewrite lookup_take_lt.
  destruct (Forall2_lookup_l _ _ _ _ _ Hp Hrowt) as (q & Hq & Hdict).
  apply enumerate_dict_get in Hdict as (key & Hkey & Heq).
  apply list_lookup_fmap_Some in Hkey as (pt & -> & Hpt).
  apply mapM_Ok in Hperm.
  destruct (Forall2_lookup_l _ _ _ _ _ Hperm Hq) as (cpt & Hcpt & Hgetq).
  apply np_get_nat_inv in Hgetq.
  assert (block !! t = Some cpt) as Hblockt.
  { rewrite (assign_block_lookup _ _ _ _ Hblock); [done| |done].
    by eapply lookup_lt_Some. }
  destruct (write_loop_value _ _ _ _ _ _ Hc Hnodup t d k)
    as (pt' & row' & Hpt' & Hrow' & Hnew); [by rewrite lookup_take_lt|done|].
  simpl in Hpt'. rewrite Hblockt in Hpt'. injection Hpt' as <-.
  exists phys, cur, q, pt, cpt, row, row'. split_and!; done.
Qed.

End CurvingValues.

Section CurveLoopValues.
Context `{PETSc, Netgen, Python, FIAT, !Firedrake}.
Variables (ncomp npts nel : nat) (getIdx : Z → Z) (f : Function).
Variables (physPts curvedPhysPts : list (list (list scalar))).

Hypothesis cells_disjoint : disjoint_cells nel f getIdx.
Hypothesis nodes_distinct : distinct_nodes nel npts f getIdx.

Lemma curve_loop_value (els : list Element) (i : nat) (data data' : list (list scalar)) :
  curve_loop ncomp npts getIdx (cell_node_map_values f) physPts curvedPhysPts
    i els data = Ok data' →
  (i + length els ≤ nel)%nat →
  length data = length (dat_data f) →
  (∀ j k, (i ≤ j < nel)%nat → cell_node f getIdx j k →
          data !! k = dat_data f !! k) →
  ∀ j el cell t d k,
    els !! j = Some el → curved el = true →
    np_get (cell_node_map_values f) (getIdx (Z.of_nat (i + j))) = Ok cell →
    take npts cell !! t = Some d →
    np_index (length (dat_data f)) d = Some k →
    ∃ phys cur q pt cpt row row',
      np_get physPts (Z.of_nat (i + j)) = Ok phys ∧
      np_get curvedPhysPts (Z.of_nat (i + j)) = Ok cur ∧
      take npts phys !! q = Some pt ∧ cur !! q = Some cpt ∧
      dat_data f !! k = Some row ∧
      tuple_eqb (round_tuple pt) (round_tuple row) = true ∧
      data' !! k = Some row' ∧
      ∀ c, (c < ncomp)%nat → row' !! c = cpt !! c.
Proof.
  revert i data. induction els as [|el0 rest IH]; intros i data Hloop Hi Hlen Hagree.
  { intros j el cell t d k. by rewrite lookup_nil. }
  simpl in Hloop, Hi. apply bind_Ok in Hloop as (data1 & Hbody & Hloop).
  assert (length data1 = length data ∧
          ∀ k, data1 !! k = data !! k ∨
               curved el0 = true ∧ cell_node f getIdx i k) as [Hlen1 Hframe1].
  { destruct (curved el0).
    - apply curve_element_frame in Hbody as [? Hk1]. split; [done|].
      intros k. destruct (Hk1 k) as [?|(cell & d & Hcell & Hd & Hidx)]; [by left|].
      right. split; [done|]. exists cell, d. by rewrite <- Hlen.
    - injection Hbody as <-. split; [done|]. intros k. by left. }
  intros [|j] el cell t d k Hel Hcurved Hcell Ht Hk; simpl in Hel.
  - injection Hel as ->. rewrite Nat.add_0_r in *. rewrite Hcurved in Hbody.
    assert (cell_node f getIdx i k) as Hnode.
    { exists cell, d. split_and!; [done| |done].
      apply lookup_take_Some in Ht as [Ht _]. by eapply list_elem_of_lookup_2. }
    destruct (curve_element_value _ _ _ _ _ _ _ _ _ _ Hbody Hcell) with (t := t)
      (d := d) (k := k)
      as (phys & cur & q & pt & cpt & row & row1 & Hphys & Hcur & Hpt & Hcpt
          & Hrow & Heq & Hrow1 & Hnew).
    { rewrite Hlen. apply (nodes_distinct i cell); [lia|done]. }
    { done. }
    { by rewrite Hlen. }
    exists phys, cur, q, pt, cpt, row, row1.
    split_and!; [done|done|done|done| |done| |done].
    + rewrite <- (Hagree i k); [done|lia|done].
    + destruct (curve_loop_frame _ _ _ _ _ _ _ _ _ _ Hloop) as [_ Hframe].
      destruct (Hframe k) as [->|(j' & el' & cell' & d' & Hj' & _ & Hcell' & Hd' & Hk')];
        [done|].
      exfalso. apply (cells_disjoint i (S i + j')%nat k); [lia| |lia|done|].
      * apply lookup_lt_Some in Hj'. lia.
      * exists cell', d'. by rewrite <- Hlen, <- Hlen1.
  - replace (i + S j)%nat with (S i + j)%nat by lia.
    eapply (IH (S i) data1 Hloop); [lia|congruence| |done|done| |done|done].
    + intros j0 k0 Hj0 Hnode.
      destruct (Hframe1 k0) as [->|[_ Hnode0]]; [apply (Hagree j0); [lia|done]|].
      exfalso. apply (cells_disjoint i j0 k0); [lia..|done|done].
    + by replace (S i + j)%nat with (i + S j)%nat by lia.
Qed.

End CurveLoopValues.

Section CurvedPoints.
Context `{PETSc, Netgen, Python, FIAT, !Firedrake}.

(** X10: in a DG space whose cells list distinct nodes, after a normal
    return every one of the first [npts] nodes of an element flagged
    [curved] holds, in its first [gdim] components, the curved image of a
    straight-sided reference point of that element; that point is one
    whose rounded straight-sided image equals the rounded interpolated row
    of the node. *)
Theorem curve_writes_curved_points (self : MeshGeometry) (order : Z)
    (ents : list (Z * Z)) (f' : Function) (m' : ngmesh) :
  let f := interpolate_coordinates self order in
  let gdim := geometric_dimension self in
  let getIdx := getOffset (cell_numbering self) in
  let refPts := reference_points (ref_el f) gdim order ents in
  let els := serial_elements gdim (Curve order (netgen_mesh self)) in
  gdim = 2 ∨ gdim = 3 →
  sub_entities (ref_el f) gdim = Some ents →
  curveField self order = (Ok f', m') →
  disjoint_cells (length els) f getIdx →
  distinct_nodes (length els) (length refPts) f getIdx →
  ∀ i el cell t d k,
    els !! i = Some el → curved el = true →
    np_get (cell_node_map_values f) (getIdx (Z.of_nat i)) = Ok cell →
    take (length refPts) cell !! t = Some d →
    np_index (length (dat_data f)) d = Some k →
    ∃ q row row',
      (q < length refPts)%nat ∧
      dat_data f !! k = Some row ∧
      dat_data f' !! k = Some row' ∧
      tuple_eqb
        (round_tuple ((λ c, CalcElementMapping (netgen_mesh self) refPts i q c)
                        <$> seq 0 (Z.to_nat gdim)))
        (round_tuple row) = true ∧
      ∀ c, (c < Z.to_nat gdim)%nat →
        row' !! c = Some (CalcElementMapping (Curve order (netgen_mesh self))
                            refPts i q c).
Proof.
  intros f gdim getIdx refPts els Hdim Hents Hcurve Hdisjoint Hdistinct
    i el cell t d k Hel Hcurved Hcell Ht Hk.
  rewrite (curveField_unfold self order ents Hdim Hents) in Hcurve.
  destruct (curve_loop_of self order ents) as [data|e] eqn:Hloop; [|done].
  injection Hcurve as <- <-. simpl. unfold curve_loop_of in Hloop.
  fold f gdim refPts els in Hloop.
  destruct (curve_loop_value (Z.to_nat gdim) (length refPts) (length els) getIdx f
              _ _ Hdisjoint Hdistinct els 0 (dat_data f) data Hloop)
    with (j := i) (el := el) (cell := cell) (t := t) (d := d) (k := k)
    as (phys & cur & q & pt & cpt & row & row' & Hphys & Hcur & Hpt & Hcpt
        & Hrow & Heq & Hrow' & Hnew); [simpl; lia|done|done|done..|].
  simpl in Hphys, Hcur.
  apply np_get_nat_inv, ndarray3_lookup_inv in Hphys as [_ ->].
  apply np_get_nat_inv, ndarray3_lookup_inv in Hcur as [_ ->].
  rewrite take_ge in Hpt by (by rewrite ndarray2_length).
  apply ndarray2_lookup_inv in Hpt as [Hq ->].
  apply ndarray2_lookup_inv in Hcpt as [_ ->].
  exists q, row, row'. split_and!; [done..|].
  intros c Hc. rewrite (Hnew c Hc).
  by rewrite list_lookup_fmap, lookup_seq_lt.
Qed.

End CurvedPoints.

(** ** The point matching: which point a row is matched to *)

Section MatchingChoice.
Context `{Python}.

(** Storing under a key, then looking a key up. *)
Lemma dict_get_set d k v q :
  dict_get (dict_set d k v) q = if tuple_eqb k q then Ok v else dict_get d q.
Proof.
  induction d as [|[k' v'] d IH]; simpl; [done|].
  destruct (tuple_eqb k' k) eqn:Hk'k; simpl.
  - destruct (tuple_eqb k q) eqn:Hkq.
    + by rewrite (tuple_eqb_trans _ _ _ Hk'k Hkq).
    + destruct (tuple_eqb k' q) eqn:Hk'q; [|done].
      rewrite (tuple_eqb_trans _ _ _ (tuple_eqb_sym _ _ Hk'k) Hk'q) in Hkq. done.
  - rewrite IH. destruct (tuple_eqb k' q) eqn:Hk'q; [|done].
    destruct (tuple_eqb k q) eqn:Hkq; [|done].
    rewrite (tuple_eqb_trans _ _ _ Hk'q (tuple_eqb_sym _ _ Hkq)) in Hk'k. done.
Qed.

Lemma enumerate_dict_snoc (pts : list (list scalar)) (k : list scalar) :
  enumerate_dict (pts ++ [k]) = dict_set (enumerate_dict pts) k (length pts).
Proof.
  unfold enumerate_dict. rewrite length_app. simpl.
  rewrite Nat.add_1_r, seq_S. simpl.
  rewrite zip_with_app by (by rewrite length_seq). simpl.
  by rewrite foldl_snoc.
Qed.

(** The dictionary of lines 89-91 maps a key to the last position that
    holds an equal point. *)
Lemma enumerate_dict_last (pts : list (list scalar)) (q : list scalar) (v : nat) :
  dict_get (enumerate_dict pts) q = Ok v
  ↔ (∃ k, pts !! v = Some k ∧ tuple_eqb k q = true)
    ∧ ∀ v' k', (v < v')%nat → pts !! v' = Some k' → tuple_eqb k' q = false.
Proof.
  revert v. induction pts as [|k pts IH] using rev_ind; intros v.
  { split; [done|]. by intros [(k & Hk & _) _]. }
  rewrite enumerate_dict_snoc, dict_get_set.
  destruct (tuple_eqb k q) eqn:Hkq.
  - split.
    + intros [= <-]. split.
      * exists k. split; [|done]. by rewrite list_lookup_middle.
      * intros v' k' Hv' Hk'. apply lookup_lt_Some in Hk'.
        rewrite length_app in Hk'. simpl in Hk'. lia.
    + intros [(k0 & Hk0 & _) Hlast]. f_equal.
      pose proof (lookup_lt_Some _ _ _ Hk0) as Hv.
      rewrite length_app in Hv. simpl in Hv.
      destruct (decide (v = length pts)) as [->|Hne]; [done|].
      rewrite (Hlast (length pts) k) in Hkq; [done|lia|].
      by rewrite list_lookup_middle.
  - rewrite IH. split.
    + intros [(k0 & Hk0 & Heq) Hlast]. split.
      * exists k0. split; [by apply lookup_app_l_Some|done].
      * intros v' k' Hv' Hk'.
        apply lookup_app_Some in Hk' as [Hk'|[_ Hk']]; [by eapply Hlast|].
        destruct (v' - length pts)%nat; simpl in Hk'; [|done]. congruence.
    + intros [(k0 & Hk0 & Heq) Hlast].
      apply lookup_app_Some in Hk0 as [Hk0|[_ Hk0]].
      * split; [by exists k0|]. intros v' k' Hv' Hk'.
        apply (Hlast v' k'); [done|]. by apply lookup_app_l_Some.
      * destruct (v - length pts)%nat; simpl in Hk0; [|done]. congruence.
Qed.

Section WithCollaborators.
Context `{PETSc, Netgen, FIAT, !Firedrake}.

(** X11: every entry of the list [p] built in lines 89-93 is the number
    of a straight-sided point that equals the row after rounding, and of
    the last such point: among coincident points the later one wins. *)
Theorem match_points_takes_last (phys dofs : list (list scalar)) (p : list nat) :
  match_points phys dofs = Ok p →
  length p = length dofs ∧
  ∀ t row q, dofs !! t = Some row → p !! t = Some q →
    (∃ pt, phys !! q = Some pt ∧
           tuple_eqb (round_tuple pt) (round_tuple row) = true)
    ∧ ∀ q' pt', (q < q')%nat → phys !! q' = Some pt' →
                tuple_eqb (round_tuple pt') (round_tuple row) = false.
Proof.
  unfold match_points. intros Hp. pose proof (mapM_length _ _ _ Hp) as Hlen.
  apply mapM_Ok in Hp. split; [done|].
  intros t row q Hrow Hq. pose proof (Forall2_lookup_lr _ _ _ _ _ _ Hp Hrow Hq) as Hget.
  simpl in Hget. apply enumerate_dict_last in Hget as [(k & Hk & Heq) Hlast].
  apply list_lookup_fmap_Some in Hk as (pt & -> & Hpt). split; [by exists pt|].
  intros q' pt' Hq' Hpt'. apply (Hlast q'); [done|].
  by rewrite list_lookup_fmap, Hpt'.
Qed.

(** X12: when the rows are pairwise different after rounding, no point
    is used twice; with as many rows as points, [p] is a permutation of
    the point numbers. *)
Theorem match_points_permutation (phys dofs : list (list scalar)) (p : list nat) :
  match_points phys dofs = Ok p →
  (∀ t1 t2 r1 r2, t1 ≠ t2 → dofs !! t1 = Some r1 → dofs !! t2 = Some r2 →
                  tuple_eqb (round_tuple r1) (round_tuple r2) = false) →
  NoDup p ∧ (length dofs = length phys → p ≡ₚ seq 0 (length phys)).
Proof.
  intros Hp Hdiff. pose proof (match_points_Ok _ _ _ Hp) as (Hlen & Hbound & _).
  assert (NoDup p) as Hnodup.
  { apply NoDup_alt. intros t1 t2 q Hq1 Hq2.
    destruct (decide (t1 = t2)) as [|Hne]; [done|exfalso].
    unfold match_points in Hp. apply mapM_Ok in Hp.
    destruct (Forall2_lookup_r _ _ _ _ _ Hp Hq1) as (r1 & Hr1 & Hget1).
    destruct (Forall2_lookup_r _ _ _ _ _ Hp Hq2) as (r2 & Hr2 & Hget2).
    apply enumerate_dict_get in Hget1 as (k1 & Hk1 & Heq1).
    apply enumerate_dict_get in Hget2 as (k2 & Hk2 & Heq2).
    rewrite Hk1 in Hk2. injection Hk2 as <-.
    pose proof (Hdiff t1 t2 r1 r2 Hne Hr1 Hr2) as Hfalse.
    by rewrite (tuple_eqb_trans _ _ _ (tuple_eqb_sym _ _ Heq1) Heq2) in Hfalse. }
  split; [done|]. intros Hsame.
  apply submseteq_length_Permutation.
  - apply NoDup_submseteq; [done|]. intros q Hq. apply elem_of_seq.
    pose proof (proj1 (Forall_forall _ _) Hbound q Hq). simpl in *. lia.
  - rewrite length_seq. lia.
Qed.

(** X13: the reference points are the points of the entities of
    dimension below [gdim], concatenated in the order of the entity table;
    entities of dimension [gdim] or more contribute none, and the points
    of two tables laid end to end are laid end to end. *)
Theorem reference_points_concat (cell : Cell) (gdim order : Z)
    (ents ents' : list (Z * Z)) :
  reference_points cell gdim order ents
  = ents ≫= (λ ij, if decide (ij.1 < gdim) then make_points cell ij.1 ij.2 order
                    else [])
  ∧ reference_points cell gdim order (ents ++ ents')
    = reference_points cell gdim order ents
      ++ reference_points cell gdim order ents'
  ∧ (Forall (λ ij, gdim ≤ ij.1) ents → reference_points cell gdim order ents = []).
Proof.
  assert (∀ l acc,
    foldl (λ refPts (ij : Z * Z),
             if decide (ij.1 < gdim) then refPts ++ make_points cell ij.1 ij.2 order
             else refPts) acc l
    = acc ++ (l ≫= (λ ij, if decide (ij.1 < gdim)
                           then make_points cell ij.1 ij.2 order else [])))
    as Hfold.
  { induction l as [|ij l IH]; intros acc; simpl.
    - by rewrite app_nil_r.
    - rewrite IH. case_decide; [by rewrite <- app_assoc|done]. }
  assert (∀ l, reference_points cell gdim order l
               = l ≫= (λ ij, if decide (ij.1 < gdim)
                              then make_points cell ij.1 ij.2 order else []))
    as Hclosed.
  { intros l. unfold reference_points. by rewrite Hfold. }
  split_and!.
  - apply Hclosed.
  - rewrite !Hclosed. apply bind_app.
  - rewrite Hclosed. induction 1 as [|ij l Hij _ IH]; simpl; [done|].
    rewrite decide_False by lia. done.
Qed.

End WithCollaborators.
End MatchingChoice.

(** ** More on FiredrakeMesh.__init__ *)

Section ConstructionSteps.
Context `{PETSc, Netgen, !Bridge}.

(** X14: the objects the constructor recognises are Netgen meshes, NGSolve
    meshes when [ngsolve] was imported, and [None] when it was not; on any
    other object it raises the mesh-format error before it reads a flag,
    with no warning and no change to the object, and it raises a
    [ValueError] in no other case. *)
Theorem init_format_error_iff (ngsolve_imported : bool) (mesh : pyobj)
    (netgen_flags : gmap string flag_value) (user_comm : Comm) :
  (isinstance mesh [ngs_comp_Mesh ngsolve_imported; ngm_Mesh_class] = true
   ↔ (∃ m, mesh = NetgenMesh m)
     ∨ (ngsolve_imported = true ∧ ∃ m, mesh = NgsolveMesh m)
     ∨ (ngsolve_imported = false ∧ mesh = PyNone))
  ∧ (isinstance mesh [ngs_comp_Mesh ngsolve_imported; ngm_Mesh_class] = false →
     FiredrakeMesh_init ngsolve_imported mesh netgen_flags user_comm
     = (Raise (ValueError "Mesh format not recognised."), [], mesh))
  ∧ ((∃ msg, (FiredrakeMesh_init ngsolve_imported mesh netgen_flags user_comm).1.1
             = Raise (ValueError msg))
     ↔ isinstance mesh [ngs_comp_Mesh ngsolve_imported; ngm_Mesh_class] = false).
Proof.
  split_and!.
  - destruct ngsolve_imported, mesh;
      (split;
       [intros Hi; vm_compute in Hi;
        first [ discriminate Hi
              | left; by eexists
              | right; left; split; [done|by eexists]
              | right; right; done ]
       |intros [[m' Hm]|[[Hn [m' Hm]]|[Hn Hm]]];
        first [ discriminate Hm | discriminate Hn | reflexivity ]]).
  - intros Hinst. unfold FiredrakeMesh_init. by rewrite Hinst.
  - unfold FiredrakeMesh_init.
    destruct (isinstance mesh _) eqn:Hinst; [|split; eauto].
    split; [|done]. intros [msg Hmsg]. exfalso. revert Hmsg.
    unfold purify_step, quad_step, transform_step, call_Split2Tets.
    destruct (netgen_flags !! "purify_to_tets") as [v1|]; [destruct (flag_truthy v1)|];
      [destruct mesh| |]; simpl; try done;
      (destruct (netgen_flags !! "quad") as [v2|]; [destruct (flag_truthy v2)|]);
      simpl;
      (destruct (netgen_flags !! "transform") as [[| |]|]); done.
Qed.

(** The warnings of a complete run, in order. *)
Lemma init_warnings_cases (ngsolve_imported : bool) (mesh : pyobj)
    (netgen_flags : gmap string flag_value) (user_comm : Comm) :
  let all :=
    warning_if_absent netgen_flags "purify_to_tets"
      "No purify_to_tets flag found, mesh will not be purified to tets."
    ++ warning_if_absent netgen_flags "quad"
         "No quad flag found, mesh will not be quadrilateralised."
    ++ warning_if_absent netgen_flags "transform"
         "No PETSc transform found, mesh will not be transformed." in
  let r := FiredrakeMesh_init ngsolve_imported mesh netgen_flags user_comm in
  (∃ fm, r.1.1 = Ok fm ∧ r.1.2 = all)
  ∨ (∃ e, r.1.1 = Raise e ∧ r.1.2 `prefix_of` all).
Proof.
  intros all r. subst all r.
  unfold FiredrakeMesh_init, purify_step, quad_step, transform_step,
    warning_if_absent.
  destruct (isinstance mesh _); [|right; eexists; split; [done|apply prefix_nil]].
  destruct (netgen_flags !! "purify_to_tets") as [v1|];
    [destruct (flag_truthy v1); [destruct (call_Split2Tets mesh)|]|];
    simpl;
    try (right; eexists; split; [done|apply prefix_nil]);
    (destruct (netgen_flags !! "quad") as [v2|]; [destruct (flag_truthy v2)|]);
    simpl;
    (destruct (netgen_flags !! "transform") as [[| |]|]); simpl;
    try (left; eexists; split; done);
    right; eexists; (split; [done|]); by eexists.
Qed.

(** X15: the warnings of a successful construction are exactly those of
    the keys missing from [netgen_flags], in the order purify, quad,
    transform, whatever the values of the keys present; a construction that
    raises has emitted some first part of that list. *)
Theorem init_warnings_absent_keys (ngsolve_imported : bool) (mesh : pyobj)
    (netgen_flags : gmap string flag_value) (user_comm : Comm) :
  let all :=
    warning_if_absent netgen_flags "purify_to_tets"
      "No purify_to_tets flag found, mesh will not be purified to tets."
    ++ warning_if_absent netgen_flags "quad"
         "No quad flag found, mesh will not be quadrilateralised."
    ++ warning_if_absent netgen_flags "transform"
         "No PETSc transform found, mesh will not be transformed." in
  let r := FiredrakeMesh_init ngsolve_imported mesh netgen_flags user_comm in
  (∀ fm, r.1.1 = Ok fm → r.1.2 = all)
  ∧ r.1.2 `prefix_of` all
  ∧ (length r.1.2 ≤ 3)%nat.
Proof.
  intros all r.
  assert (r.1.2 `prefix_of` all) as Hprefix.
  { destruct (init_warnings_cases ngsolve_imported mesh netgen_flags user_comm)
      as [(fm & _ & Hall)|(e & _ & Hpre)]; [|done].
    subst all r. by rewrite Hall. }
  split_and!; [|done|].
  - intros fm Hfm.
    destruct (init_warnings_cases ngsolve_imported mesh netgen_flags user_comm)
      as [(fm' & _ & Hall)|(e & He & _)]; [done|].
    subst r. congruence.
  - apply prefix_length in Hprefix.
    assert (length all ≤ 3)%nat; [|lia].
    subst all. unfold warning_if_absent.
    destruct (netgen_flags !! "purify_to_tets"), (netgen_flags !! "quad"),
      (netgen_flags !! "transform"); simpl; lia.
Qed.

(** X17: with [purify_to_tets] and [quad] truthy and a transform given, a
    Netgen mesh is split in place, wrapped, refined to boxes, wrapped
    again, transformed and wrapped a third time, in this order and without
    a warning. *)
Theorem init_all_steps (ngsolve_imported : bool) (m : ngmesh)
    (netgen_flags : gmap string flag_value) (user_comm : Comm)
    (v1 v2 : flag_value) (t : DMPlexTransform) :
  netgen_flags !! "purify_to_tets" = Some v1 → flag_truthy v1 = true →
  netgen_flags !! "quad" = Some v2 → flag_truthy v2 = true →
  netgen_flags !! "transform" = Some (FlagTransform t) →
  FiredrakeMesh_init ngsolve_imported (NetgenMesh m) netgen_flags user_comm =
    (Ok {| comm := user_comm;
           meshMap :=
             MeshMapping (DMPlex (transform_apply t (petscPlex
               (MeshMapping (DMPlex (transform_apply REFINETOBOX (petscPlex
                  (MeshMapping (NetgenMesh (Split2Tets m))))))))))|},
     [], NetgenMesh (Split2Tets m)).
Proof.
  intros Hv1 Ht1 Hv2 Ht2 Hv3.
  unfold FiredrakeMesh_init, purify_step, quad_step, transform_step.
  assert (isinstance (NetgenMesh m) [ngs_comp_Mesh ngsolve_imported; ngm_Mesh_class]
          = true) as -> by by destruct ngsolve_imported.
  by rewrite Hv1, Ht1, Hv2, Ht2, Hv3.
Qed.

(** X18: after a failed import of [ngsolve], constructing on [None] with a
    truthy [purify_to_tets] raises [AttributeError] at [mesh.Split2Tets()],
    before any warning; it is not rejected as an unrecognised format. *)
Theorem init_None_purify (netgen_flags : gmap string flag_value)
    (user_comm : Comm) (v : flag_value) :
  netgen_flags !! "purify_to_tets" = Some v → flag_truthy v = true →
  FiredrakeMesh_init false PyNone netgen_flags user_comm
  = (Raise AttributeError, [], PyNone).
Proof.
  intros Hv Ht. unfold FiredrakeMesh_init, purify_step. simpl.
  by rewrite Hv, Ht.
Qed.

End ConstructionSteps.

(** ** createFromTopology, then refineMarkedElements *)

Section FromTopology.
Context `{Topology, Netgen, !Bridge}.


End FromTopology.

(** ** The further theorems at the sample instances *)

Section MoreSampleFacts.
Import Sample SampleTopology.

Lemma sample_distinct_nodes :
  distinct_nodes 2 6 (interpolate_coordinates (serial 2) 2) (λ x, x).
Proof.
  intros [|[|i]] cell Hi Hcell; [| |lia]; injection Hcell as <-;
    apply (bool_decide_unpack _); by vm_compute.
Qed.

Lemma refine_index_error_iff_witness :
geometric_dimension (serial 2) = 2
∧ comm_rank (serial 2) = 0%nat
∧ (refineMarkedElements (serial 2) [one]).1 = Raise IndexError.
Proof.
split; [reflexivity|]. split; [reflexivity|].
apply (proj2 (refine_index_error_iff (serial 2) [one] eq_refl eq_refl)).
exists 1%nat. split; [simpl; lia|reflexivity].
Defined.

Lemma refine_stops_at_bad_index_witness :
geometric_dimension (serial 2) = 2
∧ comm_rank (serial 2) = 0%nat
∧ refine (triangle 0 1 2) = false
∧ ∃ left e0,
    refineMarkedElements (serial 2) [one] = (Raise IndexError, left)
    ∧ Elements2D left !! 0%nat = Some e0 ∧ refine e0 = true
    ∧ Elements2D left !! 1%nat = Some (triangle 1 3 2).
Proof.
split; [reflexivity|]. split; [reflexivity|]. split; [reflexivity|].
destruct (refine_stops_at_bad_index (serial 2) [one] 1)
  as (left & Hres & _ & Hflags & Hkept & _).
- reflexivity.
- reflexivity.
- simpl. lia.
- intros [|j] Hj; [by eexists|lia].
- reflexivity.
- destruct (Hflags 0%nat (triangle 0 1 2)) as (v & e0 & Hv & He0 & Hr0 & _);
    [lia|reflexivity|].
  injection Hv as <-. exists left, e0.
  split; [exact Hres|]. split; [exact He0|]. split; [exact Hr0|].
  exact (Hkept 1%nat (le_n 1)).
Defined.

Lemma refine_overwrites_flags_witness :
comm_rank (serial 2) = 0%nat
∧ geometry_of <$> flagged_triangles = geometry_of <$> Elements2D square
∧ refineMarkedElements (with_Elements2D flagged_triangles (serial 2)) [one; zero]
  = refineMarkedElements (serial 2) [one; zero].
Proof.
split; [reflexivity|]. split; [reflexivity|].
exact (refine_overwrites_flags (serial 2) [one; zero] flagged_triangles _ _
         eq_refl eq_refl eq_refl).
Defined.

Lemma refine_partitioned_flags_witness :
geometric_dimension (parallel 0) = 2
∧ sfBCInv (parallel 0) = Some [1; 0]%nat
∧ ∃ flagged,
    refineMarkedElements (parallel 0) [one; zero]
    = (Ok (fd_Mesh (Refine flagged)), Refine flagged)
    ∧ refine <$> Elements2D flagged = [false; true].
Proof.
split; [reflexivity|]. split; [reflexivity|].
destruct (refine_partitioned_flags (parallel 0) [one; zero] [1; 0]%nat)
  as (flagged & Hres & Hflags & _); [reflexivity..|].
exists flagged. split; [exact Hres|exact Hflags].
Defined.

Lemma curve_without_curved_elements_witness :
sub_entities (ref_el (interpolate_coordinates (serial 2) 1)) 2
  = Some triangle_entities
∧ Forall (λ el, curved el = false) (Elements2D (Curve 1 square))
∧ curveField (serial 2) 1
  = (Ok (interpolate_coordinates (serial 2) 1), Curve 1 square).
Proof.
split; [reflexivity|]. split; [by repeat constructor|].
refine (curve_without_curved_elements (serial 2) 1 triangle_entities _ _).
- reflexivity.
- by repeat constructor.
Defined.

Lemma curve_keeps_shape_witness :
curveField (serial 2) 2 = (Ok curved_field, Curve 2 square)
∧ length <$> dat_data curved_field
  = length <$> dat_data (interpolate_coordinates (serial 2) 2)
∧ cell_node_map_values curved_field
  = cell_node_map_values (interpolate_coordinates (serial 2) 2).
Proof.
split; [reflexivity|].
destruct (curve_keeps_shape (serial 2) 2 curved_field (Curve 2 square))
  as (Hrows & Hmap & _); [reflexivity|].
split; [exact Hrows|exact Hmap].
Defined.

Lemma curve_cell_out_of_range_witness :
serial_elements 2 (Curve 2 square)
  = [] ++ {| refine := false; curved := true; vertices := [0; 1; 2]%nat |}
       :: [triangle 1 3 2]
∧ np_index (length (cell_node_map_values (interpolate_coordinates shifted 2)))
    (getOffset (cell_numbering shifted) 0) = None
∧ curveField shifted 2 = (Raise IndexError, Curve 2 square).
Proof.
split; [reflexivity|]. split; [reflexivity|].
refine (curve_cell_out_of_range shifted 2 triangle_entities []
          [triangle 1 3 2]
          {| refine := false; curved := true; vertices := [0; 1; 2]%nat |}
          _ _ _ _ _ _).
- by left.
- reflexivity.
- reflexivity.
- constructor.
- reflexivity.
- reflexivity.
Defined.

Lemma curve_writes_curved_points_witness :
curveField (serial 2) 2 = (Ok curved_field, Curve 2 square)
∧ disjoint_cells 2 (interpolate_coordinates (serial 2) 2) (λ x, x)
∧ distinct_nodes 2 6 (interpolate_coordinates (serial 2) 2) (λ x, x)
∧ ∃ q row row',
    (q < 6)%nat
    ∧ dat_data (interpolate_coordinates (serial 2) 2) !! 0%nat = Some row
    ∧ dat_data curved_field !! 0%nat = Some row'
    ∧ ∀ c, (c < 2)%nat → row' !! c = Some (mapped_point (Curve 2 square) 0 q c).
Proof.
split; [reflexivity|]. split; [exact sample_disjoint_cells|].
split; [exact sample_distinct_nodes|].
destruct (curve_writes_curved_points (serial 2) 2 triangle_entities curved_field
            (Curve 2 square))
  with (i := 0%nat)
       (el := {| refine := false; curved := true; vertices := [0; 1; 2]%nat |})
       (cell := [0; 1; 2; 3; 4; 5]) (t := 0%nat) (d := 0) (k := 0%nat)
  as (q & row & row' & Hq & Hrow & Hrow' & _ & Hnew).
- by left.
- reflexivity.
- reflexivity.
- exact sample_disjoint_cells.
- exact sample_distinct_nodes.
- reflexivity.
- reflexivity.
- reflexivity.
- reflexivity.
- reflexivity.
- exists q, row, row'. split; [exact Hq|]. split; [exact Hrow|].
  split; [exact Hrow'|exact Hnew].
Defined.

Lemma match_points_takes_last_witness :
match_points coincident_points [[one]; [zero]] = Ok [2; 1]%nat
∧ ∃ pt, coincident_points !! 2%nat = Some pt
        ∧ tuple_eqb (round_tuple pt) (round_tuple [one]) = true.
Proof.
split; [reflexivity|].
destruct (match_points_takes_last coincident_points [[one]; [zero]] [2; 1]%nat)
  as [_ Hlast]; [reflexivity|].
exact (proj1 (Hlast 0%nat [one] 2%nat eq_refl eq_refl)).
Defined.

Lemma match_points_permutation_witness :
match_points [[one]; [zero]] [[zero]; [one]] = Ok [1; 0]%nat
∧ NoDup [1; 0]%nat
∧ [1; 0]%nat ≡ₚ [0; 1]%nat.
Proof.
split; [reflexivity|].
destruct (match_points_permutation [[one]; [zero]] [[zero]; [one]] [1; 0]%nat)
  as [Hnodup Hperm].
- reflexivity.
- intros [|[|t1]] [|[|t2]] r1 r2 Hne Hr1 Hr2; try done;
    injection Hr1 as <-; injection Hr2 as <-; reflexivity.
- split; [exact Hnodup|exact (Hperm eq_refl)].
Defined.

Lemma init_all_steps_witness :
all_flags !! "purify_to_tets" = Some (FlagBool true)
∧ all_flags !! "quad" = Some (FlagBool true)
∧ all_flags !! "transform" = Some (FlagTransform 7%nat)
∧ (FiredrakeMesh_init true (NetgenMesh square) all_flags 0%nat).1.2 = []
∧ (FiredrakeMesh_init true (NetgenMesh square) all_flags 0%nat).2
  = NetgenMesh (Split2Tets square).
Proof.
split; [reflexivity|]. split; [reflexivity|]. split; [reflexivity|].
rewrite (init_all_steps true square all_flags 0%nat (FlagBool true)
           (FlagBool true) 7%nat eq_refl eq_refl eq_refl eq_refl eq_refl).
split; reflexivity.
Defined.

Lemma init_None_purify_witness :
({["purify_to_tets" := FlagBool true]} : gmap string flag_value)
  !! "purify_to_tets" = Some (FlagBool true)
∧ FiredrakeMesh_init false PyNone {["purify_to_tets" := FlagBool true]} 0%nat
  = (Raise AttributeError, [], PyNone).
Proof.
split; [reflexivity|].
exact (init_None_purify {["purify_to_tets" := FlagBool true]} 0%nat
         (FlagBool true) eq_refl eq_refl).
Defined.


End MoreSampleFacts.
